(** * The signalling coordinator of the video-calling application

    A shallow embedding of the tRPC router under [src/server/trpc/router]:
    the in-memory room registry, the per-peer mailboxes, and the eight
    procedures of [roomRouter].  The registry is a JavaScript [Map]; rooms,
    the participant table and the three tables of a mailbox are plain
    JavaScript objects used as string-keyed maps, so the embedding starts
    with the part of the object model the procedures rely on. *)

From Stdlib Require Import Ascii NArith.
From stdpp Require Import base option list strings gmap.

Local Open Scope string_scope.
Local Open Scope list_scope.

(** ** Plain JavaScript objects used as maps *)

Module JS.

(** What every object literal [{}] inherits from [Object.prototype]: ten
    methods and the [constructor] (functions, each with its [length]), and
    the accessor [__proto__], whose getter yields [Object.prototype]
    itself and whose setter ignores a primitive value. *)
Inductive member : Type :=
  | Method (arity : nat)
  | Accessor.

Definition Object_prototype : list (string * member) :=
  [ ("constructor", Method 1);
    ("__defineGetter__", Method 2);
    ("__defineSetter__", Method 2);
    ("hasOwnProperty", Method 1);
    ("__lookupGetter__", Method 1);
    ("__lookupSetter__", Method 1);
    ("isPrototypeOf", Method 1);
    ("propertyIsEnumerable", Method 1);
    ("toString", Method 0);
    ("valueOf", Method 0);
    ("__proto__", Accessor);
    ("toLocaleString", Method 0) ].

(** An object is the list of its own enumerable properties, in the order
    [Object.keys] and [Object.entries] report them. *)
Definition obj (V : Type) : Type := list (string * V).

Fixpoint own_prop {V} (o : obj V) (k : string) : option V :=
  match o with
  | [] => None
  | (k', v) :: o' => if String.eqb k' k then Some v else own_prop o' k
  end.

Definition inherited (k : string) : option member :=
  own_prop Object_prototype k.

(** The result of the property read [o[k]]: an own property, else a member
    found on the prototype, else [undefined]. *)
Inductive value (V : Type) : Type :=
  | Val (v : V)
  | Inherited (k : string) (m : member)
  | Undefined.
Arguments Val {V} v.
Arguments Inherited {V} k m.
Arguments Undefined {V}.

Definition get_prop {V} (o : obj V) (k : string) : value V :=
  match own_prop o k with
  | Some v => Val v
  | None =>
      match inherited k with
      | Some m => Inherited k m
      | None => Undefined
      end
  end.

(** [ToBoolean]: a string is falsy exactly when it is empty; arrays and
    objects are truthy, and so is every inherited member. *)
Class ToBoolean (V : Type) := to_boolean : V → bool.

#[global] Instance string_to_boolean : ToBoolean string :=
  fun s => match s with EmptyString => false | String _ _ => true end.

#[global] Instance array_to_boolean {A} : ToBoolean (list A) :=
  fun _ => true.

Definition truthy {V} `{ToBoolean V} (x : value V) : bool :=
  match x with
  | Val v => to_boolean v
  | Inherited _ _ => true
  | Undefined => false
  end.

(** [x.length > 0] for the value read from a table of arrays.  A function
    has its arity as [length]; [Object.prototype] has none, and
    [undefined > 0] is false. *)
Definition length_positive {A} (x : value (list A)) : bool :=
  match x with
  | Val xs => bool_decide (0 < length xs)
  | Inherited _ (Method n) => bool_decide (0 < n)
  | Inherited _ Accessor => false
  | Undefined => false
  end.

(** *** Own property order

    A key that is an array index (a canonical decimal numeral below
    [2^32 - 1]) is enumerated before every other key, in ascending numeric
    order; the remaining keys follow in the order of their creation. *)
Definition digit (c : ascii) : option N :=
  let n := N_of_ascii c in
  if bool_decide (48 ≤ n ≤ 57)%N then Some (n - 48)%N else None.

Fixpoint numeral (s : string) (acc : N) : option N :=
  match s with
  | EmptyString => Some acc
  | String c s' =>
      match digit c with
      | Some d => numeral s' (10 * acc + d)%N
      | None => None
      end
  end.

Definition array_index (s : string) : option N :=
  match s with
  | EmptyString => None
  | String "0"%char EmptyString => Some 0%N
  | String "0"%char _ => None
  | _ =>
      match numeral s 0 with
      | Some n => if bool_decide (n ≤ 4294967294)%N then Some n else None
      | None => None
      end
  end.

Fixpoint define_index {V} (i : N) (k : string) (v : V) (o : obj V) : obj V :=
  match o with
  | [] => [(k, v)]
  | (k', v') :: o' =>
      match array_index k' with
      | Some j =>
          if bool_decide (j < i)%N
          then (k', v') :: define_index i k v o'
          else (k, v) :: o
      | None => (k, v) :: o
      end
  end.

(** Creation of a new own property. *)
Definition define_prop {V} (k : string) (v : V) (o : obj V) : obj V :=
  match array_index k with
  | Some i => define_index i k v o
  | None => o ++ [(k, v)]
  end.

(** Writing to the own property the lookup finds; its place is kept. *)
Fixpoint update_prop {V} (k : string) (v : V) (o : obj V) : obj V :=
  match o with
  | [] => []
  | (k', v') :: o' =>
      if String.eqb k' k then (k', v) :: o'
      else (k', v') :: update_prop k v o'
  end.

(** The assignment [o[k] = v].  An own property is overwritten.  Otherwise
    a method found on the prototype is shadowed by a new own property, and
    so is created a property the prototype does not have; for [__proto__]
    the inherited setter runs instead, which leaves the object alone when
    [v] is a string.  (With an object for [v] the setter would re-parent
    [o]; the procedures below assign an object only behind a test that the
    key [__proto__] never passes, see [set_prop_undefined] and
    [length_positive_set].) *)
Definition set_prop {V} (k : string) (v : V) (o : obj V) : obj V :=
  match own_prop o k with
  | Some _ => update_prop k v o
  | None =>
      match inherited k with
      | Some Accessor => o
      | _ => define_prop k v o
      end
  end.

Definition keys {V} (o : obj V) : list string := o.*1.

(** An object has no two own properties of the same name: a list stands
    for an object only if its keys are distinct.  Every operation above
    keeps them so. *)
Fixpoint distinct (ks : list string) : bool :=
  match ks with
  | [] => true
  | k :: ks' => negb (existsb (String.eqb k) ks') && distinct ks'
  end.

End JS.

Import JS.

(** ** Data model *)

(** The value stored for a participant: three tables keyed by the peer the
    entry is addressed to. *)
Record Mailbox : Type := {
  offers : obj string;
  answers : obj string;
  iceCandidates : obj (list string);
}.

Record Room : Type := {
  id : string;
  participants : obj Mailbox;
}.

(** A mailbox is an object, hence truthy. *)
#[global] Instance Mailbox_to_boolean : ToBoolean Mailbox := fun _ => true.

Definition set_offers (t : obj string) (data : Mailbox) : Mailbox :=
  {| offers := t; answers := answers data;
     iceCandidates := iceCandidates data |}.

Definition set_answers (t : obj string) (data : Mailbox) : Mailbox :=
  {| offers := offers data; answers := t;
     iceCandidates := iceCandidates data |}.

Definition set_iceCandidates (t : obj (list string)) (data : Mailbox)
  : Mailbox :=
  {| offers := offers data; answers := answers data; iceCandidates := t |}.

Definition set_participants (t : obj Mailbox) (room : Room) : Room :=
  {| id := id room; participants := t |}.

(** [const rooms = new Map<string, Room>()] *)
Abbreviation Rooms := (gmap string Room).

(** ** Procedures: state and exceptions *)

(** The two [throw new Error(...)] sites carry a message; a [TypeError] is
    what the runtime raises on a property write on [undefined] or on a call
    of something that is not a function. *)
Inductive exn : Type :=
  | Error (message : string)
  | TypeError.

Definition NotFound (roomId : string) : exn :=
  Error ("Room " +:+ roomId +:+ " not found").

Definition PeerNotFound (peerId roomId : string) : exn :=
  Error ("Peer " +:+ peerId +:+ " not found in room " +:+ roomId).

Inductive completion (A : Type) : Type :=
  | Return (a : A)
  | Throw (e : exn).
Arguments Return {A} a.
Arguments Throw {A} e.

(** A procedure runs on a store and leaves a store behind, also when it
    throws: nothing rolls a mutation back. *)
Definition proc (S A : Type) : Type := S → completion A * S.

Definition ret {S A} (a : A) : proc S A := fun s => (Return a, s).

Definition bind {S A B} (p : proc S A) (k : A → proc S B) : proc S B :=
  fun s =>
    match p s with
    | (Return a, s') => k a s'
    | (Throw e, s') => (Throw e, s')
    end.

Definition throw {S A} (e : exn) : proc S A := fun s => (Throw e, s).

Definition read {S A} (f : S → A) : proc S A := fun s => (Return (f s), s).

Definition write {S} (f : S → S) : proc S unit := fun s => (Return tt, f s).

Definition when {S} (b : bool) (p : proc S unit) : proc S unit :=
  if b then p else ret tt.

#[global] Instance proc_ret {S} : MRet (proc S) := fun A => @ret S A.
#[global] Instance proc_bind {S} : MBind (proc S) :=
  fun A B k p => bind p k.
#[global] Instance proc_fmap {S} : FMap (proc S) :=
  fun A B f p => bind p (fun a => ret (f a)).

(** [const room = rooms.get(roomId); if (!room) throw ...]: the body then
    works on the room object the map holds, so what it leaves behind is what
    the map holds afterwards. *)
Definition in_room {A} (roomId : string) (body : proc Room A)
  : proc Rooms A :=
  fun rooms =>
    match rooms !! roomId with
    | None => (Throw (NotFound roomId), rooms)
    | Some room =>
        let '(r, room') := body room in (r, <[roomId := room']> rooms)
    end.

(** [room.participants[fromPeerId].<table>[toPeerId] ...]: a statement of
    this form works, in place, on the mailbox the participant table holds
    for the sender.  When the lookup yields a member inherited from
    [Object.prototype] instead, that member has none of the three tables,
    and indexing its [undefined] table throws. *)
Definition in_mailbox {A} (fromPeerId : string) (body : proc Mailbox A)
  : proc Room A :=
  fun room =>
    match get_prop (participants room) fromPeerId with
    | Val data =>
        let '(r, data') := body data in
        (r, set_participants
              (update_prop fromPeerId data' (participants room)) room)
    | _ => (Throw TypeError, room)
    end.

(** [Object.entries(room.participants).forEach(([fromPeerId, data]) => ...)]
    with a callback that reads and writes [data] and pushes onto a local
    array. *)
Fixpoint forEach_entries {E}
  (callback : string → Mailbox → list E → Mailbox * list E)
  (entries : obj Mailbox) (out : list E) : obj Mailbox * list E :=
  match entries with
  | [] => ([], out)
  | (fromPeerId, data) :: rest =>
      let '(data', out') := callback fromPeerId data out in
      let '(rest', out'') := forEach_entries callback rest out' in
      ((fromPeerId, data') :: rest', out'')
  end.

Definition forEach {E}
  (callback : string → Mailbox → list E → Mailbox * list E)
  : proc Room (list E) :=
  fun room =>
    let '(entries, out) := forEach_entries callback (participants room) [] in
    (Return out, set_participants entries room).

(** ** The procedures of [roomRouter] *)

Record CreateRoomOutput : Type := { roomId : string }.
Record JoinRoomOutput : Type := { peers : list string }.
Record SendOutput : Type := { success : bool }.

(** An element of a read result: [{ fromPeerId, offer }],
    [{ fromPeerId, answer }] or [{ fromPeerId, candidates }]; the second
    field holds whatever the table lookup produced. *)
Record Received (P : Type) : Type := { fromPeerId : string; payload : value P }.
Arguments fromPeerId {P} _.
Arguments payload {P} _.

Record GetOffersOutput : Type := { offers_out : list (Received string) }.
Record GetAnswersOutput : Type := { answers_out : list (Received string) }.
Record GetIceCandidatesOutput : Type :=
  { iceCandidates_out : list (Received (list string)) }.

(** [uuidv4()] is the caller's source of fresh identifiers; the identifier it
    hands out is a parameter here. *)
Definition createRoom (uuid : string) : proc Rooms CreateRoomOutput :=
  write (fun rooms => <[uuid := {| id := uuid; participants := [] |}]> rooms) ;;
  ret {| roomId := uuid |}.

Definition joinRoom (roomId peerId : string) : proc Rooms JoinRoomOutput :=
  in_room roomId (
    known ← read (fun room => get_prop (participants room) peerId);
    when (negb (truthy known))
      (write (fun room =>
         set_participants
           (set_prop peerId {| offers := []; answers := []; iceCandidates := [] |}
              (participants room)) room)) ;;
    otherPeers ← read (fun room =>
      filter (fun id => id ≠ peerId) (keys (participants room)));
    ret {| peers := otherPeers |}).

Definition sendOffer (roomId fromPeerId toPeerId offer : string)
  : proc Rooms SendOutput :=
  in_room roomId (
    sender ← read (fun room => get_prop (participants room) fromPeerId);
    when (negb (truthy sender)) (throw (PeerNotFound fromPeerId roomId)) ;;
    in_mailbox fromPeerId
      (write (fun data =>
         set_offers (set_prop toPeerId offer (offers data)) data)) ;;
    ret {| success := true |}).

Definition sendAnswer (roomId fromPeerId toPeerId answer : string)
  : proc Rooms SendOutput :=
  in_room roomId (
    sender ← read (fun room => get_prop (participants room) fromPeerId);
    when (negb (truthy sender)) (throw (PeerNotFound fromPeerId roomId)) ;;
    in_mailbox fromPeerId
      (write (fun data =>
         set_answers (set_prop toPeerId answer (answers data)) data)) ;;
    ret {| success := true |}).

(** [push] appends to the array the table holds; on an inherited member
    there is no [push] to call. *)
Definition sendIceCandidate (roomId fromPeerId toPeerId candidate : string)
  : proc Rooms SendOutput :=
  in_room roomId (
    sender ← read (fun room => get_prop (participants room) fromPeerId);
    when (negb (truthy sender)) (throw (PeerNotFound fromPeerId roomId)) ;;
    in_mailbox fromPeerId (
      queue ← read (fun data => get_prop (iceCandidates data) toPeerId);
      when (negb (truthy queue))
        (write (fun data =>
           set_iceCandidates (set_prop toPeerId [] (iceCandidates data)) data)) ;;
      queue ← read (fun data => get_prop (iceCandidates data) toPeerId);
      match queue with
      | Val candidates =>
          write (fun data =>
            set_iceCandidates
              (update_prop toPeerId (candidates ++ [candidate])
                 (iceCandidates data)) data)
      | _ => throw TypeError
      end) ;;
    ret {| success := true |}).

Definition getOffers (roomId peerId : string) : proc Rooms GetOffersOutput :=
  in_room roomId (
    found ← forEach (fun fromPeerId data found =>
      if bool_decide (fromPeerId ≠ peerId)
         && truthy (get_prop (data.(offers)) peerId)
      then (data, found ++ [ {| fromPeerId := fromPeerId;
                                payload := get_prop (data.(offers)) peerId |} ])
      else (data, found));
    ret {| offers_out := found |}).

Definition getAnswers (roomId peerId : string) : proc Rooms GetAnswersOutput :=
  in_room roomId (
    found ← forEach (fun fromPeerId data found =>
      if bool_decide (fromPeerId ≠ peerId)
         && truthy (get_prop (data.(answers)) peerId)
      then (data, found ++ [ {| fromPeerId := fromPeerId;
                                  payload := get_prop (data.(answers)) peerId |} ])
      else (data, found));
    ret {| answers_out := found |}).

Definition getIceCandidates (roomId peerId : string)
  : proc Rooms GetIceCandidatesOutput :=
  in_room roomId (
    found ← forEach (fun fromPeerId data found =>
      let queue := get_prop (data.(iceCandidates)) peerId in
      if bool_decide (fromPeerId ≠ peerId) && truthy queue
         && length_positive queue
      then (set_iceCandidates (set_prop peerId [] (data.(iceCandidates))) data,
            found ++ [ {| fromPeerId := fromPeerId; payload := queue |} ])
      else (data, found));
    ret {| iceCandidates_out := found |}).

(** The router: one request, one procedure.  [CreateRoom] carries the
    identifier [uuidv4()] produced for it. *)
Inductive request : Type :=
  | CreateRoom (uuid : string)
  | JoinRoom (roomId peerId : string)
  | SendOffer (roomId fromPeerId toPeerId offer : string)
  | SendAnswer (roomId fromPeerId toPeerId answer : string)
  | SendIceCandidate (roomId fromPeerId toPeerId candidate : string)
  | GetOffers (roomId peerId : string)
  | GetAnswers (roomId peerId : string)
  | GetIceCandidates (roomId peerId : string).

Inductive response : Type :=
  | Created (out : CreateRoomOutput)
  | Joined (out : JoinRoomOutput)
  | Sent (out : SendOutput)
  | Offers (out : GetOffersOutput)
  | Answers (out : GetAnswersOutput)
  | IceCandidates (out : GetIceCandidatesOutput).

Definition appRouter (q : request) : proc Rooms response :=
  match q with
  | CreateRoom uuid => Created <$> createRoom uuid
  | JoinRoom r p => Joined <$> joinRoom r p
  | SendOffer r a b s => Sent <$> sendOffer r a b s
  | SendAnswer r a b s => Sent <$> sendAnswer r a b s
  | SendIceCandidate r a b s => Sent <$> sendIceCandidate r a b s
  | GetOffers r p => Offers <$> getOffers r p
  | GetAnswers r p => Answers <$> getAnswers r p
  | GetIceCandidates r p => IceCandidates <$> getIceCandidates r p
  end.

(** The room a request names; [createRoom] takes no room. *)
Definition room_of (q : request) : option string :=
  match q with
  | CreateRoom _ => None
  | JoinRoom r _ | SendOffer r _ _ _ | SendAnswer r _ _ _
  | SendIceCandidate r _ _ _ | GetOffers r _ | GetAnswers r _
  | GetIceCandidates r _ => Some r
  end.

(** The stores the coordinator can be in: it starts empty and serves one
    request after another. *)
Inductive reachable : Rooms → Prop :=
  | reachable_start : reachable ∅
  | reachable_serve q rooms :
      reachable rooms → reachable (appRouter q rooms).2.

(** ** Vocabulary of the properties *)

Definition ok : SendOutput := {| success := true |}.

Definition empty_mailbox : Mailbox :=
  {| offers := []; answers := []; iceCandidates := [] |}.

(** The three callbacks have one shape: entries that pass a test are
    rewritten and contribute one element, the others are left alone. *)
Definition selective {E} (test : string → Mailbox → bool)
  (rewrite_data : Mailbox → Mailbox) (element : string → Mailbox → E)
  : string → Mailbox → list E → Mailbox * list E :=
  fun fromPeerId data found =>
    if test fromPeerId data
    then (rewrite_data data, found ++ [element fromPeerId data])
    else (data, found).

(** What the scan leaves of an entry, and what the entry adds to the
    result. *)
Definition visited (test : string → Mailbox → bool)
  (rewrite_data : Mailbox → Mailbox) (entry : string * Mailbox)
  : string * Mailbox :=
  (entry.1, if test entry.1 entry.2 then rewrite_data entry.2 else entry.2).

Definition contributed {E} (test : string → Mailbox → bool)
  (element : string → Mailbox → E) (entry : string * Mailbox) : option E :=
  if test entry.1 entry.2 then Some (element entry.1 entry.2) else None.

(** What one sender contributes to a result. *)
Definition sent_by {P} (A : string) (found : list (Received P))
  : list (Received P) :=
  filter (fun e => fromPeerId e = A) found.

(** The element a participant contributes to [getOffers] or [getAnswers]
    for [peerId], if any. *)
Definition addressed (table : Mailbox → obj string) (peerId : string)
  : string * Mailbox → option (Received string) :=
  contributed
    (fun fromPeerId data =>
       bool_decide (fromPeerId ≠ peerId) && truthy (get_prop (table data) peerId))
    (fun fromPeerId data =>
       {| fromPeerId := fromPeerId; payload := get_prop (table data) peerId |}).

Definition drains (peerId : string) (fromPeerId : string) (data : Mailbox) : bool :=
  bool_decide (fromPeerId ≠ peerId)
  && truthy (get_prop (iceCandidates data) peerId)
  && length_positive (get_prop (iceCandidates data) peerId).

Definition drained (peerId : string) (data : Mailbox) : Mailbox :=
  set_iceCandidates (set_prop peerId [] (iceCandidates data)) data.

(** The element a participant contributes to [getIceCandidates]. *)
Definition queued (peerId : string)
  : string * Mailbox → option (Received (list string)) :=
  contributed (drains peerId)
    (fun fromPeerId data =>
       {| fromPeerId := fromPeerId;
          payload := get_prop (iceCandidates data) peerId |}).

(** The room after the mailbox of [A] has been rewritten in place. *)
Definition stored (A : string) (data : Mailbox) (room : Room) : Room :=
  set_participants (update_prop A data (participants room)) room.

(** The table of queues after one more candidate for [B]. *)
Definition enqueued (B c : string) (t : obj (list string)) : obj (list string) :=
  match own_prop t B with
  | Some q => update_prop B (q ++ [c]) t
  | None => update_prop B [c] (define_prop B [] t)
  end.

(** The room after [joinRoom] for [p]. *)
Definition joined (p : string) (room : Room) : Room :=
  if truthy (get_prop (participants room) p) then room
  else set_participants (set_prop p empty_mailbox (participants room)) room.

(** A room is in order when it is registered under its own identifier and
    no two of its participants share a key. *)
Definition in_order (R : string) (room : Room) : Prop :=
  id room = R ∧ distinct (keys (participants room)) = true.

(** The candidates [A] has queued for [B]. *)
Definition pending (room : Room) (A B : string) : list string :=
  match own_prop (participants room) A with
  | Some data => default [] (own_prop (iceCandidates data) B)
  | None => []
  end.

(** What C1 says of one room, one sender and one receiver: three sends
    succeed, the next read by the receiver returns exactly one element from
    the sender, holding the three candidates after whatever was queued
    before, and the read after that returns no element from the sender. *)
Definition drained_in_one_read (rooms : Rooms) (R A B c1 c2 c3 : string)
  : Prop :=
  ∃ room rooms1 rooms2 rooms3 rooms4 rooms5 batch1 batch2,
    rooms !! R = Some room
    ∧ sendIceCandidate R A B c1 rooms = (Return ok, rooms1)
    ∧ sendIceCandidate R A B c2 rooms1 = (Return ok, rooms2)
    ∧ sendIceCandidate R A B c3 rooms2 = (Return ok, rooms3)
    ∧ getIceCandidates R B rooms3 =
        (Return {| iceCandidates_out := batch1 |}, rooms4)
    ∧ sent_by A batch1 =
        [ {| fromPeerId := A;
             payload := Val (pending room A B ++ [c1; c2; c3]) |} ]
    ∧ getIceCandidates R B rooms4 =
        (Return {| iceCandidates_out := batch2 |}, rooms5)
    ∧ sent_by A batch2 = [].

(** What C2 says of one room, one sender and one receiver: both sends
    succeed, and the read by the receiver returns exactly one element from
    the sender, holding the second payload. *)
Definition last_offer_wins (rooms : Rooms) (R A B O1 O2 : string) : Prop :=
  ∃ rooms1 rooms2 rooms3 out,
    sendOffer R A B O1 rooms = (Return ok, rooms1)
    ∧ sendOffer R A B O2 rooms1 = (Return ok, rooms2)
    ∧ getOffers R B rooms2 = (Return {| offers_out := out |}, rooms3)
    ∧ sent_by A out = [ {| fromPeerId := A; payload := Val O2 |} ].

Definition last_answer_wins (rooms : Rooms) (R A B N1 N2 : string) : Prop :=
  ∃ rooms1 rooms2 rooms3 out,
    sendAnswer R A B N1 rooms = (Return ok, rooms1)
    ∧ sendAnswer R A B N2 rooms1 = (Return ok, rooms2)
    ∧ getAnswers R B rooms2 = (Return {| answers_out := out |}, rooms3)
    ∧ sent_by A out = [ {| fromPeerId := A; payload := Val N2 |} ].

(** Two rooms with a member each, [a] and [b] in the first. *)
Definition room_ab : Room :=
  {| id := "r"; participants := [("a", empty_mailbox); ("b", empty_mailbox)] |}.

Definition room_c : Room :=
  {| id := "s"; participants := [("c", empty_mailbox)] |}.

Definition lobby : Rooms := <["s" := room_c]> {["r" := room_ab]}.

(** A mailbox with something pending in each of its three tables. *)
Definition busy_mailbox : Mailbox :=
  {| offers := [("b", "o1")]; answers := [("b", "a1")];
     iceCandidates := [("b", ["c1"; "c2"])] |}.

Definition busy_room : Room :=
  {| id := "r"; participants := [("a", busy_mailbox); ("b", empty_mailbox)] |}.

(** The mailbox of a peer that wrote to itself on all three channels. *)
Definition echo_mailbox : Mailbox :=
  {| offers := [("a", "o")]; answers := [("a", "n")];
     iceCandidates := [("a", ["c1"; "c2"])] |}.

Definition echo_room : Room :=
  {| id := "r"; participants := [("a", echo_mailbox); ("b", empty_mailbox)] |}.

(** *** The registry as a table of cells

    What the coordinator stores is indexed by room, channel, sender and
    recipient: the offer, the answer or the queue of candidates the sender
    holds for the recipient. *)
Inductive channel : Type :=
  | OfferChannel
  | AnswerChannel
  | CandidateChannel.

#[global] Instance channel_eq_dec : EqDecision channel.
Proof. solve_decision. Defined.

Definition slot (ch : channel) (data : Mailbox) (to : string)
  : option (string + list string) :=
  match ch with
  | OfferChannel => inl <$> own_prop (offers data) to
  | AnswerChannel => inl <$> own_prop (answers data) to
  | CandidateChannel => inr <$> own_prop (iceCandidates data) to
  end.

Definition cell (rooms : Rooms) (R : string) (ch : channel)
  (from to : string) : option (string + list string) :=
  room ← rooms !! R;
  data ← own_prop (participants room) from;
  slot ch data to.

(** The cells a request can write: a send its own, [getIceCandidates] the
    queues kept for the reader by the others, [createRoom] the whole room
    whose identifier it is given; [joinRoom], [getOffers] and [getAnswers]
    none. *)
Definition writes (q : request) (R : string) (ch : channel)
  (from to : string) : bool :=
  match q with
  | CreateRoom uuid => bool_decide (uuid = R)
  | JoinRoom _ _ | GetOffers _ _ | GetAnswers _ _ => false
  | SendOffer r a b _ =>
      bool_decide (r = R ∧ ch = OfferChannel ∧ a = from ∧ b = to)
  | SendAnswer r a b _ =>
      bool_decide (r = R ∧ ch = AnswerChannel ∧ a = from ∧ b = to)
  | SendIceCandidate r a b _ =>
      bool_decide (r = R ∧ ch = CandidateChannel ∧ a = from ∧ b = to)
  | GetIceCandidates r p =>
      bool_decide (r = R ∧ ch = CandidateChannel ∧ p = to ∧ from ≠ p)
  end.

(** The requests that can change what peer [C] reads in room [R]: a send
    addressed to [C], a read of candidates by [C], and [createRoom] handing
    out the room's identifier again. *)
Definition disturbs (q : request) (R C : string) : bool :=
  match q with
  | CreateRoom uuid => bool_decide (uuid = R)
  | JoinRoom _ _ | GetOffers _ _ | GetAnswers _ _ => false
  | SendOffer r _ b _ | SendAnswer r _ b _ | SendIceCandidate r _ b _ =>
      bool_decide (r = R ∧ b = C)
  | GetIceCandidates r p => bool_decide (r = R ∧ p = C)
  end.

(** A caller sending candidates one after the other, as they are produced. *)
Fixpoint sendIceCandidates (R A B : string) (cs : list string)
  : proc Rooms SendOutput :=
  match cs with
  | [] => ret ok
  | c :: cs' => sendIceCandidate R A B c ;; sendIceCandidates R A B cs'
  end.

(** What a read hands over from one sender: nothing for an empty queue, one
    element otherwise. *)
Definition batch (A : string) (cs : list string)
  : list (Received (list string)) :=
  match cs with
  | [] => []
  | _ :: _ => [ {| fromPeerId := A; payload := Val cs |} ]
  end.

(** ** The client's connection manager

    [src/utils/webrtc.ts]: the class [WebRTCManager] keeps one
    [RTCPeerConnection] per remote peer.  The browser's objects are
    represented by what the class does to them: a connection by the tracks
    added to it, the peer its two handlers were bound to, and whether
    [close] was called on it; a track by whether [stop] was called on it.
    What the browser itself decides (the outcome of [getUserMedia] and of
    the negotiation calls) is an argument of the method that awaits it. *)

Module WebRTC.

Definition rtcConfig : list (list string) :=
  [ [ "stun:stun.l.google.com:19302";
      "stun:stun1.l.google.com:19302";
      "stun:stun2.l.google.com:19302" ] ].

(** A [MediaStream] is the list of tracks [getTracks] gives; a track is a
    handle. *)
Record MediaStream : Type := { getTracks : list nat }.

(** A handler is the closure assigned: both close over the remote peer. *)
Record RTCPeerConnection : Type := {
  configuration : list (list string);
  senders : list (nat * MediaStream);
  onicecandidate : option string;
  ontrack : option string;
  closed : bool;
}.

(** The details of an ['ice-candidate'] event on [window]. *)
Record Detail : Type := { remotePeerId : string; candidate : string }.

(** The page: the connections allocated so far, a connection's handle being
    its index; the tracks stopped; the events dispatched on [window]; the
    callbacks called, each with its argument. *)
Record Browser : Type := {
  connections : list RTCPeerConnection;
  stopped : list nat;
  dispatched : list Detail;
  called : list (nat * option MediaStream);
}.

(** The fields of the class.  A [Map] keeps its keys in insertion order; a
    callback is a handle. *)
Record WebRTCManager : Type := {
  peerConnections : list (string * nat);
  localStream : option MediaStream;
  peerId : string;
  onRemoteStreamCallbacks : list (string * nat);
}.

Record Client : Type := {
  this : WebRTCManager;
  window : Browser;
}.

(** [Map.prototype.get] and [Map.prototype.set]. *)
Definition map_get {V} (m : list (string * V)) (k : string) : option V :=
  own_prop m k.

Definition map_set {V} (k : string) (v : V) (m : list (string * V))
  : list (string * V) :=
  match own_prop m k with
  | Some _ => update_prop k v m
  | None => m ++ [(k, v)]
  end.

Definition set_peerConnections (m : list (string * nat))
  (mgr : WebRTCManager) : WebRTCManager :=
  {| peerConnections := m; localStream := localStream mgr;
     peerId := peerId mgr;
     onRemoteStreamCallbacks := onRemoteStreamCallbacks mgr |}.

Definition set_localStream (s : option MediaStream)
  (mgr : WebRTCManager) : WebRTCManager :=
  {| peerConnections := peerConnections mgr; localStream := s;
     peerId := peerId mgr;
     onRemoteStreamCallbacks := onRemoteStreamCallbacks mgr |}.

Definition set_callbacks (m : list (string * nat))
  (mgr : WebRTCManager) : WebRTCManager :=
  {| peerConnections := peerConnections mgr; localStream := localStream mgr;
     peerId := peerId mgr; onRemoteStreamCallbacks := m |}.

Definition set_connections (l : list RTCPeerConnection) (b : Browser)
  : Browser :=
  {| connections := l; stopped := stopped b; dispatched := dispatched b;
     called := called b |}.

(** [constructor()], with the identifier [uuidv4()] produced. *)
Definition constructor (uuid : string) : WebRTCManager :=
  {| peerConnections := []; localStream := None; peerId := uuid;
     onRemoteStreamCallbacks := [] |}.

Definition getPeerId : proc Client string :=
  read (fun c => peerId (this c)).

Definition getLocalStream : proc Client (option MediaStream) :=
  read (fun c => localStream (this c)).

(** [initLocalStream], given what [getUserMedia] settles to: the stream is
    kept and returned, a rejection is thrown on. *)
Definition initLocalStream (getUserMedia : completion MediaStream)
  : proc Client MediaStream :=
  match getUserMedia with
  | Return stream =>
      write (fun c =>
        {| this := set_localStream (Some stream) (this c);
           window := window c |}) ;;
      ret stream
  | Throw error => throw error
  end.

(** [peerConnection.addTrack(track, stream)] *)
Definition addTrack (track : nat) (stream : MediaStream)
  (pc : RTCPeerConnection) : RTCPeerConnection :=
  {| configuration := configuration pc;
     senders := senders pc ++ [(track, stream)];
     onicecandidate := onicecandidate pc; ontrack := ontrack pc;
     closed := closed pc |}.

(** The two handler assignments. *)
Definition bind_handlers (remote : string) (pc : RTCPeerConnection)
  : RTCPeerConnection :=
  {| configuration := configuration pc; senders := senders pc;
     onicecandidate := Some remote; ontrack := Some remote;
     closed := closed pc |}.

(** [new RTCPeerConnection(rtcConfig)] *)
Definition new_RTCPeerConnection : RTCPeerConnection :=
  {| configuration := rtcConfig; senders := []; onicecandidate := None;
     ontrack := None; closed := false |}.

Definition createPeerConnection (remote : string) : proc Client nat :=
  fun c =>
    match map_get (peerConnections (this c)) remote with
    | Some existing => (Return existing, c)
    | None =>
        let handle := length (connections (window c)) in
        let peerConnection :=
          match localStream (this c) with
          | Some stream =>
              foldl (fun pc track => addTrack track stream pc)
                new_RTCPeerConnection (getTracks stream)
          | None => new_RTCPeerConnection
          end in
        (Return handle,
         {| this :=
              set_peerConnections
                (map_set remote handle (peerConnections (this c)))
                (this c);
            window :=
              set_connections
                (connections (window c)
                 ++ [bind_handlers remote peerConnection])
                (window c) |})
    end.

Definition onRemoteStream (remote : string) (callback : nat)
  : proc Client unit :=
  write (fun c =>
    {| this :=
         set_callbacks
           (map_set remote callback (onRemoteStreamCallbacks (this c)))
           (this c);
       window := window c |}).

(** Awaiting what the browser settles to: a value or a rejection, the
    client left as it is. *)
Definition await {A} (outcome : Client → completion A) : proc Client A :=
  fun c => (outcome c, c).

(** [createOffer]: the connection is looked up or made, then the browser
    negotiates ([createOffer], [setLocalDescription]) and either yields the
    offer to serialize or rejects. *)
Definition createOffer (negotiate : Browser → nat → completion string)
  (remote : string) : proc Client string :=
  peerConnection ← createPeerConnection remote;
  await (fun c => negotiate (window c) peerConnection).

(** [handleOffer]: as [createOffer], with the offer received. *)
Definition handleOffer (negotiate : Browser → nat → string → completion string)
  (remote offerStr : string) : proc Client string :=
  peerConnection ← createPeerConnection remote;
  await (fun c => negotiate (window c) peerConnection offerStr).

(** [handleAnswer] and [handleRemoteIceCandidate] need the connection to
    exist; what follows the test is the browser's. *)
Definition handleAnswer (accept : Browser → nat → string → completion unit)
  (remote answerStr : string) : proc Client unit :=
  fun c =>
    match map_get (peerConnections (this c)) remote with
    | None => (Throw (Error ("No peer connection for " +:+ remote)), c)
    | Some peerConnection => (accept (window c) peerConnection answerStr, c)
    end.

Definition handleRemoteIceCandidate
  (accept : Browser → nat → string → completion unit)
  (remote candidateStr : string) : proc Client unit :=
  fun c =>
    match map_get (peerConnections (this c)) remote with
    | None => (Throw (Error ("No peer connection for " +:+ remote)), c)
    | Some peerConnection => (accept (window c) peerConnection candidateStr, c)
    end.

(** [handleIceCandidate]: one ['ice-candidate'] event on [window];
    [candidate] is the candidate serialized. *)
Definition handleIceCandidate (remote candidate : string) (b : Browser)
  : Browser :=
  {| connections := connections b; stopped := stopped b;
     dispatched :=
       dispatched b ++ [{| remotePeerId := remote; candidate := candidate |}];
     called := called b |}.

(** What the browser reports on a connection: a candidate gathered ([None]
    for the [null] that ends the gathering), or a remote track with the
    streams it belongs to. *)
Inductive event : Type :=
  | IceCandidateEvent (candidate : option string)
  | TrackEvent (streams : list MediaStream).

(** The two handlers of [createPeerConnection], run on an event of the
    connection [handle]. *)
Definition fire (handle : nat) (e : event) (c : Client) : Client :=
  match connections (window c) !! handle with
  | None => c
  | Some pc =>
      match e with
      | IceCandidateEvent found =>
          match onicecandidate pc, found with
          | Some remote, Some candidate =>
              {| this := this c;
                 window := handleIceCandidate remote candidate (window c) |}
          | _, _ => c
          end
      | TrackEvent streams =>
          match ontrack pc with
          | Some remote =>
              match map_get (onRemoteStreamCallbacks (this c)) remote with
              | Some callback =>
                  {| this := this c;
                     window :=
                       {| connections := connections (window c);
                          stopped := stopped (window c);
                          dispatched := dispatched (window c);
                          called :=
                            called (window c) ++ [(callback, head streams)]
                       |} |}
              | None => c
              end
          | None => c
          end
      end
  end.

(** [connection.close()] *)
Definition mark_closed (pc : RTCPeerConnection) : RTCPeerConnection :=
  {| configuration := configuration pc; senders := senders pc;
     onicecandidate := onicecandidate pc; ontrack := ontrack pc;
     closed := true |}.

Definition close (handle : nat) (b : Browser) : Browser :=
  set_connections (alter mark_closed handle (connections b)) b.

(** [track.stop()] *)
Definition stop (track : nat) (b : Browser) : Browser :=
  {| connections := connections b; stopped := stopped b ++ [track];
     dispatched := dispatched b; called := called b |}.

Definition closeAllConnections : proc Client unit :=
  fun c =>
    let closed_all :=
      foldl (fun b connection => close connection.2 b) (window c)
        (peerConnections (this c)) in
    let cleared := set_peerConnections [] (this c) in
    match localStream (this c) with
    | Some stream =>
        (Return tt,
         {| this := set_localStream None cleared;
            window := foldl (fun b track => stop track b) closed_all
                        (getTracks stream) |})
    | None => (Return tt, {| this := cleared; window := closed_all |})
    end.

(** What happens to a manager: a call of one of its methods, or an event of
    one of the page's connections. *)
Inductive action : Type :=
  | InitLocalStream (getUserMedia : completion MediaStream)
  | CreatePeerConnection (remote : string)
  | OnRemoteStream (remote : string) (callback : nat)
  | CreateOffer (remote : string)
  | HandleOffer (remote offerStr : string)
  | HandleAnswer (remote answerStr : string)
  | HandleRemoteIceCandidate (remote candidateStr : string)
  | CloseAllConnections
  | Fire (handle : nat) (e : event).

(** The client after an action; the three arguments are the browser's side
    of the negotiation. *)
Definition after
  (offer : Browser → nat → completion string)
  (answer : Browser → nat → string → completion string)
  (accept : Browser → nat → string → completion unit)
  (c : Client) (a : action) : Client :=
  match a with
  | InitLocalStream outcome => (initLocalStream outcome c).2
  | CreatePeerConnection r => (createPeerConnection r c).2
  | OnRemoteStream r callback => (onRemoteStream r callback c).2
  | CreateOffer r => (createOffer offer r c).2
  | HandleOffer r s => (handleOffer answer r s c).2
  | HandleAnswer r s => (handleAnswer accept r s c).2
  | HandleRemoteIceCandidate r s => (handleRemoteIceCandidate accept r s c).2
  | CloseAllConnections => (closeAllConnections c).2
  | Fire handle e => fire handle e c
  end.

(** A manager just constructed, in a page that has no connection yet. *)
Definition fresh (uuid : string) : Client :=
  {| this := constructor uuid;
     window := {| connections := []; stopped := []; dispatched := [];
                  called := [] |} |}.

(** The connection [handle] is open and its handlers are those made for
    [remote]. *)
Definition wired (c : Client) (remote : string) (handle : nat) : Prop :=
  ∃ pc, connections (window c) !! handle = Some pc
        ∧ configuration pc = rtcConfig
        ∧ onicecandidate pc = Some remote
        ∧ ontrack pc = Some remote
        ∧ closed pc = false.

(** The tracks of a stream as [addTrack] receives them. *)
Definition tracks_of (stream : option MediaStream)
  : list (nat * MediaStream) :=
  match stream with
  | Some s => (fun track => (track, s)) <$> getTracks s
  | None => []
  end.

(** What a connection keeps for as long as it exists: its configuration,
    its tracks and its handlers; and it is not opened again. *)
Definition evolves (pc pc' : RTCPeerConnection) : Prop :=
  configuration pc' = configuration pc
  ∧ senders pc' = senders pc
  ∧ onicecandidate pc' = onicecandidate pc
  ∧ ontrack pc' = ontrack pc
  ∧ (closed pc = true → closed pc' = true).

(** The registry of connections is in order: no peer twice, no connection
    under two peers, and every connection registered is open and wired to
    its peer. *)
Definition kept (c : Client) : Prop :=
  NoDup (keys (peerConnections (this c)))
  ∧ NoDup (peerConnections (this c)).*2
  ∧ ∀ r h, (r, h) ∈ peerConnections (this c) → wired c r h.

(** An example: a browser that settles every negotiation, a stream with
    two tracks, a page on which the camera is on, and one on which a
    connection to ["bob"] was then made. *)
Definition example_offer (b : Browser) (h : nat) : completion string :=
  Return "offer".

Definition example_answer (b : Browser) (h : nat) (s : string)
  : completion string :=
  Return "answer".

Definition example_accept (b : Browser) (h : nat) (s : string)
  : completion unit :=
  Return tt.

Definition camera : MediaStream := {| getTracks := [0; 1] |}.

Definition filming : Client :=
  (initLocalStream (Return camera) (fresh "me")).2.

Definition calling_bob : Client := (createPeerConnection "bob" filming).2.

End WebRTC.

Ltac unfold_proc :=
  unfold mbind, proc_bind, mret, proc_ret, bind, ret, read, write, when, throw.

(** * Properties *)

(** ** Objects *)

Section Objects.
  Context {V : Type}.
  Implicit Types (o : obj V) (k : string) (v : V).

Lemma eqb_true k k' : String.eqb k k' = true ↔ k = k'.
Proof. apply String.eqb_eq. Qed.

Lemma eqb_false k k' : String.eqb k k' = false ↔ k ≠ k'.
Proof. apply String.eqb_neq. Qed.

Lemma own_prop_cons k' v o k :
  own_prop ((k', v) :: o) k = if decide (k' = k) then Some v else own_prop o k.
Proof.
  simpl. destruct (String.eqb k' k) eqn:E.
  - apply eqb_true in E. by rewrite decide_True.
  - apply eqb_false in E. by rewrite decide_False.
Qed.

Lemma own_prop_None o k : own_prop o k = None ↔ k ∉ keys o.
Proof.
  induction o as [|[k' v] o IH].
  - split; [intros _; apply not_elem_of_nil | done].
  - rewrite own_prop_cons. unfold keys in *.
    rewrite fmap_cons, not_elem_of_cons. simpl. case_decide.
    + split; [done | by intros [? _]].
    + rewrite IH. split; [done | by intros [_ ?]].
Qed.

Lemma own_prop_app o o' k :
  own_prop (o ++ o') k =
    match own_prop o k with Some v => Some v | None => own_prop o' k end.
Proof.
  induction o as [|[k' v] o IH]; [done|].
  rewrite <- app_comm_cons, !own_prop_cons. by case_decide.
Qed.

Lemma keys_update o k v : keys (update_prop k v o) = keys o.
Proof.
  unfold keys. induction o as [|[k' v'] o IH]; [done|].
  cbn [update_prop]. destruct (String.eqb k' k); [done|].
  by rewrite !fmap_cons, IH.
Qed.

Lemma own_prop_update_eq o k v :
  is_Some (own_prop o k) → own_prop (update_prop k v o) k = Some v.
Proof.
  induction o as [|[k' v'] o IH]; intros [w Hw]; [done|]. simpl in *.
  destruct (String.eqb k' k) eqn:E; simpl; rewrite E; [done|]. eauto.
Qed.

Lemma own_prop_update_ne o k k' v :
  k ≠ k' → own_prop (update_prop k v o) k' = own_prop o k'.
Proof.
  intros Hne. induction o as [|[k0 v0] o IH]; [done|].
  cbn [update_prop]. destruct (String.eqb k0 k) eqn:E.
  - apply eqb_true in E. subst k0. rewrite !own_prop_cons.
    by rewrite !decide_False.
  - rewrite !own_prop_cons. by rewrite IH.
Qed.

Lemma keys_define_index i o k v :
  keys (define_index i k v o) ≡ₚ k :: keys o.
Proof.
  unfold keys. induction o as [|[k' v'] o IH]; [done|].
  cbn [define_index]. destruct (array_index k') as [j|]; [|done].
  case_bool_decide; [|done].
  rewrite !fmap_cons, IH. apply Permutation_swap.
Qed.

Lemma keys_define o k v : keys (define_prop k v o) ≡ₚ k :: keys o.
Proof.
  unfold define_prop. destruct (array_index k) as [i|].
  - apply keys_define_index.
  - unfold keys. rewrite fmap_app. simpl.
    by rewrite Permutation_app_comm.
Qed.

Lemma own_prop_define_index_eq i o k v :
  own_prop o k = None → own_prop (define_index i k v o) k = Some v.
Proof.
  induction o as [|[k' v'] o IH]; simpl.
  - by rewrite String.eqb_refl.
  - destruct (String.eqb k' k) eqn:E; [done|]. intros H.
    destruct (array_index k') as [j|]; [case_bool_decide|]; simpl;
      rewrite ?E, ?String.eqb_refl; auto.
Qed.

Lemma own_prop_define_index_ne i o k k' v :
  k ≠ k' → own_prop (define_index i k v o) k' = own_prop o k'.
Proof.
  intros Hne. apply eqb_false in Hne.
  induction o as [|[k0 v0] o IH]; simpl.
  - by rewrite Hne.
  - destruct (array_index k0) as [j|]; [case_bool_decide|]; simpl;
      rewrite ?Hne, ?IH; done.
Qed.

Lemma own_prop_define_eq o k v :
  own_prop o k = None → own_prop (define_prop k v o) k = Some v.
Proof.
  intros H. unfold define_prop. destruct (array_index k) as [i|].
  - by apply own_prop_define_index_eq.
  - rewrite own_prop_app, H. simpl. by rewrite String.eqb_refl.
Qed.

Lemma own_prop_define_ne o k k' v :
  k ≠ k' → own_prop (define_prop k v o) k' = own_prop o k'.
Proof.
  intros Hne. unfold define_prop. destruct (array_index k) as [i|].
  - by apply own_prop_define_index_ne.
  - rewrite own_prop_app. destruct (own_prop o k'); [done|]. simpl.
    apply eqb_false in Hne. by rewrite Hne.
Qed.

(** The assignment writes where the next read looks, unless the key is
    [__proto__] and not an own property. *)
Lemma own_prop_set_eq o k v :
  is_Some (own_prop o k) ∨ inherited k ≠ Some Accessor →
  own_prop (set_prop k v o) k = Some v.
Proof.
  intros H. unfold set_prop. destruct (own_prop o k) as [w|] eqn:E.
  - apply own_prop_update_eq. rewrite E. eauto.
  - destruct H as [[? ?]|H]; [done|].
    destruct (inherited k) as [[n|]|]; try done;
      by apply own_prop_define_eq.
Qed.

Lemma own_prop_set_ne o k k' v :
  k ≠ k' → own_prop (set_prop k v o) k' = own_prop o k'.
Proof.
  intros Hne. unfold set_prop. destruct (own_prop o k).
  - by apply own_prop_update_ne.
  - destruct (inherited k) as [[n|]|]; try done;
      by apply own_prop_define_ne.
Qed.

Lemma set_prop_undefined o k v :
  get_prop o k = Undefined → set_prop k v o = define_prop k v o.
Proof.
  unfold get_prop, set_prop. destruct (own_prop o k); [done|].
  by destruct (inherited k).
Qed.

Lemma get_prop_Val o k v : get_prop o k = Val v ↔ own_prop o k = Some v.
Proof.
  unfold get_prop. destruct (own_prop o k) as [w|].
  - split; by intros [= ->].
  - by destruct (inherited k).
Qed.

Lemma distinct_NoDup (ks : list string) : distinct ks = true ↔ NoDup ks.
Proof.
  induction ks as [|k ks IH]; simpl.
  - split; [constructor | done].
  - rewrite NoDup_cons, andb_true_iff, negb_true_iff, IH.
    assert (existsb (String.eqb k) ks = false ↔ k ∉ ks) as ->; [|done].
    rewrite <- not_true_iff_false, existsb_exists.
    split.
    + intros N Hin. apply N. exists k. split; [by apply list_elem_of_In|].
      apply String.eqb_refl.
    + intros N (x & Hin & E). apply eqb_true in E. subst x.
      by apply N, list_elem_of_In.
Qed.

Lemma distinct_keys_set o k v :
  distinct (keys o) = true → distinct (keys (set_prop k v o)) = true.
Proof.
  intros H. unfold set_prop. destruct (own_prop o k) eqn:E.
  - by rewrite keys_update.
  - destruct (inherited k) as [[n|]|]; try done;
      apply distinct_NoDup; rewrite keys_define; apply NoDup_cons;
      split; try (by apply own_prop_None); by apply distinct_NoDup.
Qed.

End Objects.

(** Keys that are array indices are enumerated first, in numeric order,
    whenever they were created. *)
Example own_keys_order :
  keys (define_prop "2" tt
          (define_prop "b" tt
             (define_prop "10" tt (define_prop "a" tt [])))) =
    ["2"; "10"; "a"; "b"].
Proof. reflexivity. Qed.

(** An array is assigned by [getIceCandidates] only where the test
    [length > 0] held, so never through the [__proto__] setter. *)
Lemma length_positive_set {A} (o : obj (list A)) k v :
  length_positive (get_prop o k) = true →
  own_prop (set_prop k v o) k = Some v.
Proof.
  unfold get_prop. intros H. apply own_prop_set_eq.
  destruct (own_prop o k); [eauto|]. right.
  by destruct (inherited k) as [[n|]|].
Qed.

(** ** Procedures *)

Lemma set_participants_same room : set_participants (participants room) room = room.
Proof. by destruct room. Qed.

Lemma in_room_None {A} (body : proc Room A) (rooms : Rooms) R :
  rooms !! R = None → in_room R body rooms = (Throw (NotFound R), rooms).
Proof. intros H. unfold in_room. by rewrite H. Qed.

Lemma in_room_Some {A} (body : proc Room A) (rooms : Rooms) R room :
  rooms !! R = Some room →
  in_room R body rooms = ((body room).1, <[R := (body room).2]> rooms).
Proof. intros H. unfold in_room. rewrite H. by destruct (body room). Qed.

(** *** The scan of the participants *)

Section Scan.
  Context {E : Type}.
  Variables (test : string → Mailbox → bool) (rewrite_data : Mailbox → Mailbox)
    (element : string → Mailbox → E).

Lemma forEach_entries_selective entries found :
  forEach_entries (selective test rewrite_data element) entries found =
    (visited test rewrite_data <$> entries,
     found ++ omap (contributed test element) entries).
Proof.
  revert found. induction entries as [|[k d] entries IH]; intros found.
  - by rewrite app_nil_r.
  - cbn [forEach_entries]. unfold selective at 1.
    unfold visited at 1, contributed at 1.
    cbn [fst snd fmap list_fmap omap list_omap].
    destruct (test k d); rewrite IH; [|done].
    by rewrite <- app_assoc.
Qed.

Lemma forEach_selective room :
  forEach (selective test rewrite_data element) room =
    (Return (omap (contributed test element) (participants room)),
     set_participants (visited test rewrite_data <$> participants room) room).
Proof. unfold forEach. by rewrite forEach_entries_selective. Qed.

Lemma keys_visited (entries : obj Mailbox) :
  keys (visited test rewrite_data <$> entries) = keys entries.
Proof.
  unfold keys. rewrite <- list_fmap_compose. by apply list_fmap_ext.
Qed.

Lemma own_prop_visited (entries : obj Mailbox) k :
  own_prop (visited test rewrite_data <$> entries) k =
    (fun d => if test k d then rewrite_data d else d) <$> own_prop entries k.
Proof.
  induction entries as [|[k' d] entries IH]; [done|].
  rewrite fmap_cons. unfold visited at 1. cbn [fst snd].
  rewrite !own_prop_cons. case_decide; [by subst|done].
Qed.

(** With an identity rewrite the scan is a pure read. *)
Lemma visited_id (entries : obj Mailbox) :
  (∀ d, rewrite_data d = d) → visited test rewrite_data <$> entries = entries.
Proof.
  intros H. induction entries as [|[k d] entries IH]; [done|].
  rewrite fmap_cons, IH. unfold visited. cbn [fst snd].
  by destruct (test k d); rewrite ?H.
Qed.
End Scan.

Lemma sent_by_contributed {P} (f : string * Mailbox → option (Received P))
    (entries : obj Mailbox) A :
  (∀ entry e, f entry = Some e → fromPeerId e = entry.1) →
  distinct (keys entries) = true →
  sent_by A (omap f entries) =
    match own_prop entries A with
    | Some data => option_list (f (A, data))
    | None => []
    end.
Proof.
  intros Hf. induction entries as [|[k d] entries IH]; [done|].
  unfold keys in *. rewrite fmap_cons. cbn [fst distinct].
  rewrite andb_true_iff, negb_true_iff. intros [Hk Hd].
  rewrite own_prop_cons. cbn [omap list_omap].
  assert (sent_by A (omap f entries) =
          if decide (k = A) then [] else
            match own_prop entries A with
            | Some data => option_list (f (A, data))
            | None => []
            end) as Hrest.
  { rewrite (IH Hd). case_decide; [|done]. subst k.
    assert (own_prop entries A = None) as ->; [|done].
    apply own_prop_None. unfold keys.
    assert (distinct (A :: entries.*1) = true) as Hc.
    { cbn [distinct]. by rewrite Hk, Hd. }
    apply distinct_NoDup, NoDup_cons in Hc. tauto. }
  destruct (f (k, d)) as [e|] eqn:Fe.
  - unfold sent_by in *. rewrite filter_cons, Hrest.
    pose proof (Hf _ _ Fe) as He. cbn [fst] in He.
    destruct (decide (k = A)) as [->|Hne].
    + by rewrite decide_True, Fe.
    + rewrite decide_False; [done | congruence].
  - rewrite Hrest. case_decide; [|done]. subst k. by rewrite Fe.
Qed.

(** *** The three reads *)

Lemma addressed_from table p entry e :
  addressed table p entry = Some e → fromPeerId e = entry.1.
Proof.
  unfold addressed, contributed. case_match; [|done]. by intros [= <-].
Qed.

Lemma queued_from p entry e : queued p entry = Some e → fromPeerId e = entry.1.
Proof.
  unfold queued, contributed. case_match; [|done]. by intros [= <-].
Qed.

Lemma getOffers_spec (rooms : Rooms) R p room :
  rooms !! R = Some room →
  getOffers R p rooms =
    (Return {| offers_out := omap (addressed offers p) (participants room) |},
     rooms).
Proof.
  intros H. unfold getOffers. rewrite (in_room_Some _ _ _ _ H). unfold_proc.
  change (forEach _ room) with
    (forEach (selective
       (fun k d => bool_decide (k ≠ p) && truthy (get_prop (offers d) p))
       (fun d => d)
       (fun k d => {| fromPeerId := k; payload := get_prop (offers d) p |}))
       room).
  rewrite forEach_selective. cbn [fst snd].
  rewrite visited_id by done. rewrite set_participants_same.
  by rewrite insert_id.
Qed.

Lemma getAnswers_spec (rooms : Rooms) R p room :
  rooms !! R = Some room →
  getAnswers R p rooms =
    (Return {| answers_out := omap (addressed answers p) (participants room) |},
     rooms).
Proof.
  intros H. unfold getAnswers. rewrite (in_room_Some _ _ _ _ H). unfold_proc.
  change (forEach _ room) with
    (forEach (selective
       (fun k d => bool_decide (k ≠ p) && truthy (get_prop (answers d) p))
       (fun d => d)
       (fun k d => {| fromPeerId := k; payload := get_prop (answers d) p |}))
       room).
  rewrite forEach_selective. cbn [fst snd].
  rewrite visited_id by done. rewrite set_participants_same.
  by rewrite insert_id.
Qed.

Lemma getIceCandidates_spec (rooms : Rooms) R p room :
  rooms !! R = Some room →
  getIceCandidates R p rooms =
    (Return {| iceCandidates_out := omap (queued p) (participants room) |},
     <[R := set_participants
              (visited (drains p) (drained p) <$> participants room) room]>
       rooms).
Proof.
  intros H. unfold getIceCandidates. rewrite (in_room_Some _ _ _ _ H).
  unfold_proc.
  change (forEach _ room) with
    (forEach (selective (drains p) (drained p)
       (fun k d => {| fromPeerId := k;
                      payload := get_prop (iceCandidates d) p |}))
       room).
  by rewrite forEach_selective.
Qed.

(** *** The three sends *)

(** The guard and the statement behind it, for a sender with a mailbox,
    for one without, and for a name that is only inherited. *)
Lemma guarded_joined {T} (body : proc Mailbox T) R A room data (b : SendOutput) :
  own_prop (participants room) A = Some data →
  (sender ← read (fun room => get_prop (participants room) A);
   when (negb (truthy sender)) (throw (PeerNotFound A R)) ;;
   in_mailbox A body ;; ret b) room =
    (match (body data).1 with Return _ => Return b | Throw e => Throw e end,
     stored A (body data).2 room).
Proof.
  intros H. apply get_prop_Val in H. unfold_proc. rewrite H.
  cbn [truthy to_boolean Mailbox_to_boolean negb]. unfold ret, in_mailbox.
  rewrite H. by destruct (body data) as [[t|e] data'].
Qed.

Lemma guarded_unknown {T} (body : proc Mailbox T) R A room (b : SendOutput) :
  get_prop (participants room) A = Undefined →
  (sender ← read (fun room => get_prop (participants room) A);
   when (negb (truthy sender)) (throw (PeerNotFound A R)) ;;
   in_mailbox A body ;; ret b) room =
    (Throw (PeerNotFound A R), room).
Proof. intros H. unfold_proc. by rewrite H. Qed.

Lemma guarded_inherited {T} (body : proc Mailbox T) R A room m (b : SendOutput) :
  get_prop (participants room) A = Inherited A m →
  (sender ← read (fun room => get_prop (participants room) A);
   when (negb (truthy sender)) (throw (PeerNotFound A R)) ;;
   in_mailbox A body ;; ret b) room =
    (Throw TypeError, room).
Proof.
  intros H. unfold_proc. rewrite H. cbn [truthy negb]. unfold ret, in_mailbox.
  by rewrite H.
Qed.

Lemma sendOffer_spec (rooms : Rooms) R A B s room data :
  rooms !! R = Some room →
  own_prop (participants room) A = Some data →
  sendOffer R A B s rooms =
    (Return ok,
     <[R := stored A (set_offers (set_prop B s (offers data)) data) room]> rooms).
Proof.
  intros H HA. unfold sendOffer. rewrite (in_room_Some _ _ _ _ H).
  by rewrite (guarded_joined _ _ _ _ _ _ HA).
Qed.

Lemma sendAnswer_spec (rooms : Rooms) R A B s room data :
  rooms !! R = Some room →
  own_prop (participants room) A = Some data →
  sendAnswer R A B s rooms =
    (Return ok,
     <[R := stored A (set_answers (set_prop B s (answers data)) data) room]> rooms).
Proof.
  intros H HA. unfold sendAnswer. rewrite (in_room_Some _ _ _ _ H).
  by rewrite (guarded_joined _ _ _ _ _ _ HA).
Qed.

Lemma own_prop_enqueued_eq B c t :
  own_prop (enqueued B c t) B = Some (default [] (own_prop t B) ++ [c]).
Proof.
  unfold enqueued. destruct (own_prop t B) as [q|] eqn:E.
  - apply own_prop_update_eq. rewrite E. eauto.
  - apply own_prop_update_eq. rewrite own_prop_define_eq; eauto.
Qed.

(** The queues for other recipients are left alone. *)
Lemma own_prop_enqueued_ne B c t k :
  B ≠ k → own_prop (enqueued B c t) k = own_prop t k.
Proof.
  intros Hne. unfold enqueued. destruct (own_prop t B).
  - by apply own_prop_update_ne.
  - by rewrite own_prop_update_ne, own_prop_define_ne.
Qed.

Lemma sendIceCandidate_spec (rooms : Rooms) R A B c room data :
  rooms !! R = Some room →
  own_prop (participants room) A = Some data →
  is_Some (own_prop (iceCandidates data) B) ∨ inherited B = None →
  sendIceCandidate R A B c rooms =
    (Return ok,
     <[R := stored A (set_iceCandidates (enqueued B c (iceCandidates data)) data)
              room]> rooms).
Proof.
  intros H HA HB. unfold sendIceCandidate. rewrite (in_room_Some _ _ _ _ H).
  rewrite (guarded_joined _ _ _ _ _ _ HA). unfold_proc.
  unfold enqueued, get_prop.
  destruct (own_prop (iceCandidates data) B) as [q|] eqn:E.
  - cbn. unfold get_prop. by rewrite E.
  - destruct HB as [[? ?]|HB]; [done|]. rewrite HB. cbn.
    unfold set_prop, get_prop. rewrite E, HB.
    by rewrite own_prop_define_eq.
Qed.

(** *** Joining *)

Lemma joinRoom_spec (rooms : Rooms) R p room :
  rooms !! R = Some room →
  joinRoom R p rooms =
    (Return {| peers := filter (fun id => id ≠ p)
                          (keys (participants (joined p room))) |},
     <[R := joined p room]> rooms).
Proof.
  intros H. unfold joinRoom, joined. rewrite (in_room_Some _ _ _ _ H).
  unfold_proc. by destruct (truthy (get_prop (participants room) p)).
Qed.

Lemma joined_mailbox p room data :
  own_prop (participants room) p = Some data → joined p room = room.
Proof.
  intros H. apply get_prop_Val in H. unfold joined. by rewrite H.
Qed.

(** After [joinRoom] the peer has a mailbox, unless its name is one that
    objects inherit: then the lookup was truthy from the start and nothing
    was created. *)
Lemma joined_has_mailbox p room :
  inherited p = None → is_Some (own_prop (participants (joined p room)) p).
Proof.
  intros HI. unfold joined, get_prop.
  destruct (own_prop (participants room) p) as [data|] eqn:E; rewrite ?HI;
    cbn [truthy to_boolean Mailbox_to_boolean]; [rewrite E; eauto|].
  cbn [participants set_participants]. rewrite own_prop_set_eq; [eauto|].
  right. by rewrite HI.
Qed.

Example join_under_inherited_name :
  joinRoom "r" "constructor" lobby = (Return {| peers := ["a"; "b"] |}, lobby).
Proof. vm_compute. reflexivity. Qed.

(** Joining settles the lookup: afterwards it is truthy, so a second join
    finds nothing to do. *)
Lemma joined_joined p room : joined p (joined p room) = joined p room.
Proof.
  unfold joined at 2 3.
  destruct (truthy (get_prop (participants room) p)) eqn:E.
  - unfold joined. by rewrite E.
  - assert (get_prop (participants room) p = Undefined) as U.
    { by destruct (get_prop (participants room) p). }
    apply joined_mailbox with empty_mailbox. cbn [participants set_participants].
    rewrite (set_prop_undefined _ _ _ U). apply own_prop_define_eq.
    unfold get_prop in U. by destruct (own_prop (participants room) p).
Qed.

(** ** The room registry *)

Lemma lobby_reachable : reachable lobby.
Proof.
  assert (lobby =
    (appRouter (JoinRoom "s" "c")
      (appRouter (CreateRoom "s")
        (appRouter (JoinRoom "r" "b")
          (appRouter (JoinRoom "r" "a")
            (appRouter (CreateRoom "r") ∅).2).2).2).2).2) as ->
    by (vm_compute; reflexivity).
  repeat constructor.
Qed.

(** C3. Reading offers or answers changes nothing: [getOffers] leaves the
    whole registry (hence the room and every pending entry) as it was, and
    a second [getOffers] for the same peer, with no send in between, returns
    what the first returned; likewise for [getAnswers]. *)
Theorem reads_do_not_mutate (rooms : Rooms) (R B : string) :
  ((getOffers R B rooms).2 = rooms
   ∧ getOffers R B (getOffers R B rooms).2 = getOffers R B rooms)
  ∧ ((getAnswers R B rooms).2 = rooms
     ∧ getAnswers R B (getAnswers R B rooms).2 = getAnswers R B rooms).
Proof.
  destruct (rooms !! R) as [room|] eqn:E.
  - rewrite (getOffers_spec _ _ _ _ E), (getAnswers_spec _ _ _ _ E).
    cbn [snd].
    by rewrite (getOffers_spec _ _ _ _ E), (getAnswers_spec _ _ _ _ E).
  - unfold getOffers, getAnswers. by rewrite !(in_room_None _ _ _ E).
Qed.

(** C5. [joinRoom] succeeds exactly when the room exists.  In a registered
    room it returns a list of peers that does not contain the caller; for an
    identifier the registry does not hold it throws the room-not-found error
    and changes nothing.  [createRoom] registers the identifier it returns,
    so the first part covers every room created through it. *)
Theorem joinRoom_succeeds_iff_room_exists (rooms : Rooms) (R p : string) :
  (is_Some (rooms !! R) →
     ∃ others rooms',
       joinRoom R p rooms = (Return {| peers := others |}, rooms')
       ∧ p ∉ others)
  ∧ (rooms !! R = None → joinRoom R p rooms = (Throw (NotFound R), rooms))
  ∧ (∀ uuid, ∃ rooms1,
       createRoom uuid rooms = (Return {| roomId := uuid |}, rooms1)
       ∧ is_Some (rooms1 !! uuid)).
Proof.
  split; [|split].
  - intros [room E]. rewrite (joinRoom_spec _ _ _ _ E).
    eexists _, _. split; [done|].
    rewrite list_elem_of_filter. by intros [N _].
  - intros E. unfold joinRoom. by rewrite (in_room_None _ _ _ E).
  - intros uuid. eexists. split; [done|]. rewrite lookup_insert_eq. eauto.
Qed.

Lemma joinRoom_succeeds_iff_room_exists_witness :
  (∃ others rooms',
     joinRoom "r" "b" lobby = (Return {| peers := others |}, rooms')
     ∧ "b" ∉ others)
  ∧ joinRoom "nowhere" "b" lobby = (Throw (NotFound "nowhere"), lobby).
Proof.
  split.
  - apply (joinRoom_succeeds_iff_room_exists lobby "r" "b").
    exists room_ab. reflexivity.
  - apply (joinRoom_succeeds_iff_room_exists lobby "nowhere" "b").
    reflexivity.
Defined.

(** C6. [joinRoom] is idempotent.  When the peer already has a mailbox the
    call leaves the registry as it was, so the mailbox keeps its pending
    offers, answers and candidate queues, and no second mailbox appears; and
    in every case a second [joinRoom] right after the first changes nothing
    more and returns the same list of peers. *)
Theorem joinRoom_idempotent (rooms : Rooms) (R p : string) :
  (∀ room data,
     rooms !! R = Some room →
     own_prop (participants room) p = Some data →
     (joinRoom R p rooms).2 = rooms)
  ∧ joinRoom R p (joinRoom R p rooms).2 = joinRoom R p rooms.
Proof.
  split.
  - intros room data E Hp. rewrite (joinRoom_spec _ _ _ _ E). cbn [snd].
    rewrite (joined_mailbox _ _ _ Hp). by apply insert_id.
  - destruct (rooms !! R) as [room|] eqn:E.
    + rewrite (joinRoom_spec _ _ _ _ E). cbn [snd].
      rewrite (joinRoom_spec _ _ _ (joined p room)) by apply lookup_insert_eq.
      by rewrite joined_joined, insert_insert_eq.
    + unfold joinRoom. by rewrite !(in_room_None _ _ _ E).
Qed.

Lemma joinRoom_idempotent_witness :
  (joinRoom "r" "a" {["r" := busy_room]}).2 = {["r" := busy_room]}.
Proof.
  apply (proj1 (joinRoom_idempotent {["r" := busy_room]} "r" "a")
           busy_room busy_mailbox); reflexivity.
Defined.

(** *** One room at a time *)

Lemma fmap_proc {S A B} (f : A → B) (p : proc S A) (s : S) :
  (f <$> p) s =
    (match (p s).1 with Return a => Return (f a) | Throw e => Throw e end,
     (p s).2).
Proof.
  unfold fmap, proc_fmap, bind, ret. by destruct (p s) as [[a|e] s'].
Qed.

Lemma in_room_other {A} (body : proc Room A) (rooms : Rooms) R1 R2 :
  R1 ≠ R2 → (in_room R1 body rooms).2 !! R2 = rooms !! R2.
Proof.
  intros Hne. unfold in_room. destruct (rooms !! R1) as [room|]; [|done].
  destruct (body room). cbn [snd]. by rewrite lookup_insert_ne.
Qed.

Lemma in_room_local {A} (body : proc Room A) (rooms rooms' : Rooms) R :
  rooms' !! R = rooms !! R →
  (in_room R body rooms').1 = (in_room R body rooms).1
  ∧ (in_room R body rooms').2 !! R = (in_room R body rooms).2 !! R.
Proof.
  intros H. unfold in_room. rewrite H.
  destruct (rooms !! R) as [room|] eqn:E; [|by cbn [fst snd]; rewrite H, E].
  destruct (body room). cbn [fst snd]. by rewrite !lookup_insert_eq.
Qed.

(** Every procedure that takes a room identifier is [in_room] of it. *)
Lemma appRouter_in_room q R :
  room_of q = Some R →
  ∃ (A : Type) (body : proc Room A) (f : A → response),
    appRouter q = fmap f (in_room R body).
Proof.
  destruct q; intros [= <-]; do 3 eexists; reflexivity.
Qed.

(** C9. Rooms are isolated.  A request that names room [R1] (any of
    [joinRoom], the three sends and the three reads) leaves every other room
    [R2] of the registry exactly as it was; and what it returns and what it
    leaves in [R1] are determined by [R1] alone: they are the same in every
    registry that holds the same [R1], whatever its other rooms hold. *)
Theorem room_isolation (q : request) (R1 R2 : string) (rooms : Rooms) :
  room_of q = Some R1 →
  R1 ≠ R2 →
  (appRouter q rooms).2 !! R2 = rooms !! R2
  ∧ ∀ rooms' : Rooms,
      rooms' !! R1 = rooms !! R1 →
      (appRouter q rooms').1 = (appRouter q rooms).1
      ∧ (appRouter q rooms').2 !! R1 = (appRouter q rooms).2 !! R1.
Proof.
  intros Hq Hne. destruct (appRouter_in_room q R1 Hq) as (A & body & f & ->).
  split.
  - rewrite fmap_proc. cbn [snd]. by apply in_room_other.
  - intros rooms' H. rewrite !fmap_proc. cbn [fst snd].
    destruct (in_room_local body rooms rooms' R1 H) as [-> ->]. done.
Qed.

Lemma room_isolation_witness :
  (appRouter (GetIceCandidates "r" "b")
     (<["s" := room_c]> {["r" := busy_room]})).2 !! "s" = Some room_c
  ∧ (appRouter (GetIceCandidates "r" "b") {["r" := busy_room]}).1 =
    (appRouter (GetIceCandidates "r" "b")
       (<["s" := room_c]> {["r" := busy_room]})).1.
Proof.
  pose proof (room_isolation (GetIceCandidates "r" "b") "r" "s"
                (<["s" := room_c]> {["r" := busy_room]}) eq_refl ltac:(done))
    as [Hother Hlocal].
  split.
  - exact Hother.
  - apply (Hlocal {["r" := busy_room]}). reflexivity.
Defined.

(** *** What the coordinator keeps true *)

Lemma in_mailbox_keys {T} (body : proc Mailbox T) A room :
  keys (participants (in_mailbox A body room).2) = keys (participants room)
  ∧ id (in_mailbox A body room).2 = id room.
Proof.
  unfold in_mailbox.
  destruct (get_prop (participants room) A) as [data| |]; [|done..].
  destruct (body data). cbn [snd set_participants participants id].
  by rewrite keys_update.
Qed.

Lemma in_room_in_order {A} (body : proc Room A) (rooms : Rooms) R0 :
  (∀ room, in_order R0 room → in_order R0 (body room).2) →
  (∀ R room, rooms !! R = Some room → in_order R room) →
  ∀ R room, (in_room R0 body rooms).2 !! R = Some room → in_order R room.
Proof.
  intros Hbody Hrooms R room. unfold in_room.
  destruct (rooms !! R0) as [room0|] eqn:E; [|by apply Hrooms].
  pose proof (Hbody room0 (Hrooms _ _ E)) as H0.
  destruct (body room0) as [r room0']. cbn [snd] in *.
  destruct (decide (R0 = R)) as [->|Hne].
  - rewrite lookup_insert_eq. by intros [= <-].
  - rewrite lookup_insert_ne by done. apply Hrooms.
Qed.

Lemma guarded_in_order {T} (body : proc Mailbox T) R A room (b : SendOutput) :
  in_order R room →
  in_order R
    ((sender ← read (fun room => get_prop (participants room) A);
      when (negb (truthy sender)) (throw (PeerNotFound A R)) ;;
      in_mailbox A body ;; ret b) room).2.
Proof.
  intros [Hid Hd]. unfold_proc.
  destruct (negb (truthy (get_prop (participants room) A))); [done|].
  unfold ret. destruct (in_mailbox_keys body A room) as [Hk Hi].
  destruct (in_mailbox A body room) as [[t|e] room']; cbn [snd] in *;
    unfold in_order; by rewrite Hk, Hi.
Qed.

Lemma forEach_in_order {E Out} test rewrite_data (element : string → Mailbox → E)
    (wrap : list E → Out) R room :
  in_order R room →
  in_order R (bind (forEach (selective test rewrite_data element))
                (fun found => ret (wrap found)) room).2.
Proof.
  intros [Hid Hd]. unfold bind. rewrite forEach_selective.
  unfold in_order, ret. cbn [snd set_participants participants id].
  by rewrite keys_visited.
Qed.

Lemma joined_in_order R p room : in_order R room → in_order R (joined p room).
Proof.
  intros [Hid Hd]. unfold joined. case_match; [done|].
  split; [done|]. by apply distinct_keys_set.
Qed.

(** In every store the coordinator can reach, every room is in order. *)
Lemma reachable_in_order (rooms : Rooms) :
  reachable rooms → ∀ R room, rooms !! R = Some room → in_order R room.
Proof.
  induction 1 as [|q rooms Hr IH]; [by intros R room; rewrite lookup_empty|].
  destruct q; cbn [appRouter]; rewrite fmap_proc; cbn [snd].
  - intros R room. unfold createRoom. unfold_proc. cbn [snd].
    destruct (decide (uuid = R)) as [->|Hne].
    + rewrite lookup_insert_eq. by intros [= <-].
    + rewrite lookup_insert_ne by done. apply IH.
  - intros R room. destruct (rooms !! roomId0) as [room0|] eqn:E.
    + rewrite (joinRoom_spec _ _ _ _ E). cbn [snd].
      destruct (decide (roomId0 = R)) as [->|Hne].
      * rewrite lookup_insert_eq. intros [= <-].
        apply joined_in_order. by apply IH.
      * rewrite lookup_insert_ne by done. apply IH.
    + unfold joinRoom. rewrite (in_room_None _ _ _ E). apply IH.
  - apply in_room_in_order; [|done]. intros room. apply guarded_in_order.
  - apply in_room_in_order; [|done]. intros room. apply guarded_in_order.
  - apply in_room_in_order; [|done]. intros room. apply guarded_in_order.
  - apply in_room_in_order; [|done]. intros room.
    apply (forEach_in_order
      (fun k d => bool_decide (k ≠ peerId) && truthy (get_prop (offers d) peerId))
      (fun d => d)).
  - apply in_room_in_order; [|done]. intros room.
    apply (forEach_in_order
      (fun k d => bool_decide (k ≠ peerId) && truthy (get_prop (answers d) peerId))
      (fun d => d)).
  - apply in_room_in_order; [|done]. intros room.
    apply (forEach_in_order (drains peerId) (drained peerId)).
Qed.

(** ** Delivery *)

Lemma stored_keys A data room :
  keys (participants (stored A data room)) = keys (participants room).
Proof. unfold stored. cbn [participants set_participants]. apply keys_update. Qed.

Lemma stored_own A data room :
  is_Some (own_prop (participants room) A) →
  own_prop (participants (stored A data room)) A = Some data.
Proof. apply own_prop_update_eq. Qed.

Lemma own_prop_elem_of {V} (o : obj V) k v :
  own_prop o k = Some v → (k, v) ∈ o.
Proof.
  induction o as [|[k' v'] o IH]; [done|]. rewrite own_prop_cons.
  case_decide.
  - intros [= ->]. subst. apply list_elem_of_here.
  - intros H'. by apply list_elem_of_further, IH.
Qed.

Lemma inherited_accessor k : inherited k = Some Accessor → k = "__proto__".
Proof.
  intros H%own_prop_elem_of. unfold Object_prototype in H.
  repeat (apply elem_of_cons in H as [H|H]; [by simplify_eq|]).
  by apply elem_of_nil in H.
Qed.

(** No read returns an element that names the reader as its sender. *)
Lemma addressed_not_self table p (entries : obj Mailbox) e :
  e ∈ omap (addressed table p) entries → fromPeerId e ≠ p.
Proof.
  rewrite list_elem_of_omap. intros ([k d] & _ & He).
  unfold addressed, contributed in He. cbn [fst snd] in He.
  destruct (bool_decide (k ≠ p)) eqn:Hk; [|done].
  apply bool_decide_eq_true in Hk. case_match; [|done].
  by injection He as <-.
Qed.

Lemma queued_not_self p (entries : obj Mailbox) e :
  e ∈ omap (queued p) entries → fromPeerId e ≠ p.
Proof.
  rewrite list_elem_of_omap. intros ([k d] & _ & He).
  unfold queued, contributed, drains in He. cbn [fst snd] in He.
  destruct (bool_decide (k ≠ p)) eqn:Hk; [|done].
  apply bool_decide_eq_true in Hk. case_match; [|done].
  by injection He as <-.
Qed.

(** C10. A message a peer addresses to itself is never delivered.  No
    element of what [getOffers], [getAnswers] or [getIceCandidates] returns
    for [p] names [p] as its sender (the calls return, or throw the
    room-not-found error), so nothing [p] stored under its own name comes
    back to it; and the queue [p] keeps for itself is drained by no read:
    [getIceCandidates] for any reader leaves it as it was, and a read by [p]
    leaves the whole mailbox of [p] as it was. *)
Theorem self_addressed_never_delivered (rooms : Rooms) (R p : string) :
  match (getOffers R p rooms).1 with
  | Return out => ∀ e, e ∈ offers_out out → fromPeerId e ≠ p
  | Throw e => e = NotFound R
  end
  ∧ match (getAnswers R p rooms).1 with
    | Return out => ∀ e, e ∈ answers_out out → fromPeerId e ≠ p
    | Throw e => e = NotFound R
    end
  ∧ match (getIceCandidates R p rooms).1 with
    | Return out => ∀ e, e ∈ iceCandidates_out out → fromPeerId e ≠ p
    | Throw e => e = NotFound R
    end
  ∧ ∀ reader room data,
      rooms !! R = Some room →
      own_prop (participants room) p = Some data →
      ∃ room' data',
        (getIceCandidates R reader rooms).2 !! R = Some room'
        ∧ own_prop (participants room') p = Some data'
        ∧ own_prop (iceCandidates data') p = own_prop (iceCandidates data) p
        ∧ (reader = p → data' = data).
Proof.
  destruct (rooms !! R) as [room|] eqn:E.
  - rewrite (getOffers_spec _ _ _ _ E), (getAnswers_spec _ _ _ _ E).
    split; [|split; [|split]].
    + intros e. apply addressed_not_self.
    + intros e. apply addressed_not_self.
    + rewrite (getIceCandidates_spec _ _ _ _ E). intros e.
      apply queued_not_self.
    + intros reader room0 data [= <-] Hp.
      rewrite (getIceCandidates_spec _ _ _ _ E). cbn [snd].
      rewrite lookup_insert_eq. eexists _, _. split; [done|].
      cbn [participants set_participants].
      rewrite own_prop_visited, Hp. split; [done|].
      unfold drains. destruct (decide (p = reader)) as [->|Hne].
      * rewrite bool_decide_eq_false_2 by (intros N; by apply N). done.
      * case_match; [|split; [done | congruence]].
        split; [|congruence]. unfold drained.
        cbn [iceCandidates set_iceCandidates].
        apply own_prop_set_ne. congruence.
  - unfold getOffers, getAnswers, getIceCandidates.
    rewrite !(in_room_None _ _ _ E). by repeat split.
Qed.

Lemma self_addressed_never_delivered_witness :
  ∃ room' data',
    (getIceCandidates "r" "a" {["r" := echo_room]}).2 !! "r" = Some room'
    ∧ own_prop (participants room') "a" = Some data'
    ∧ own_prop (iceCandidates data') "a" = Some ["c1"; "c2"]
    ∧ ("a" = "a" → data' = echo_mailbox).
Proof.
  apply (proj2 (proj2 (proj2
           (self_addressed_never_delivered {["r" := echo_room]} "r" "a")))
           "a" echo_room echo_mailbox); reflexivity.
Defined.

(** *** Candidates *)

Lemma send_candidate_step (rooms : Rooms) R A B c room :
  rooms !! R = Some room →
  is_Some (own_prop (participants room) A) →
  inherited B = None →
  ∃ room',
    sendIceCandidate R A B c rooms = (Return ok, <[R := room']> rooms)
    ∧ keys (participants room') = keys (participants room)
    ∧ is_Some (own_prop (participants room') A)
    ∧ pending room' A B = pending room A B ++ [c]
    ∧ pending room' A B ≠ [].
Proof.
  intros E [data HA] HB. eexists. split; [|split; [|split; [|split]]].
  - apply (sendIceCandidate_spec _ _ _ _ _ _ _ E HA). by right.
  - apply stored_keys.
  - rewrite stored_own; eauto.
  - unfold pending. rewrite stored_own, HA by eauto.
    cbn [iceCandidates set_iceCandidates]. by rewrite own_prop_enqueued_eq.
  - unfold pending. rewrite stored_own by eauto.
    cbn [iceCandidates set_iceCandidates]. rewrite own_prop_enqueued_eq.
    cbn [default]. intros N. by apply app_eq_nil in N as [_ ?].
Qed.

(** One read for [B] hands over the whole queue of [A] and leaves it
    empty. *)
Lemma read_candidates_step (rooms : Rooms) R A B room :
  rooms !! R = Some room →
  distinct (keys (participants room)) = true →
  A ≠ B →
  pending room A B ≠ [] →
  ∃ room' data',
    getIceCandidates R B rooms =
      (Return {| iceCandidates_out := omap (queued B) (participants room) |},
       <[R := room']> rooms)
    ∧ sent_by A (omap (queued B) (participants room)) =
        [ {| fromPeerId := A; payload := Val (pending room A B) |} ]
    ∧ keys (participants room') = keys (participants room)
    ∧ own_prop (participants room') A = Some data'
    ∧ own_prop (iceCandidates data') B = Some [].
Proof.
  intros E Hd Hne Hq. unfold pending in *.
  destruct (own_prop (participants room) A) as [data|] eqn:HA; [|done].
  destruct (own_prop (iceCandidates data) B) as [q|] eqn:HB; [|done].
  cbn [default] in *.
  assert (get_prop (iceCandidates data) B = Val q) as Hget
    by by apply get_prop_Val.
  assert (drains B A data = true) as Hdrains.
  { unfold drains. rewrite Hget, bool_decide_eq_true_2 by done.
    cbn. apply bool_decide_eq_true_2. destruct q; [done | cbn; lia]. }
  eexists _, _. split; [by apply getIceCandidates_spec|].
  split; [|split; [|split]].
  - rewrite (sent_by_contributed _ _ _ (queued_from B) Hd), HA.
    unfold queued, contributed. cbn [fst snd]. by rewrite Hdrains, Hget.
  - apply keys_visited.
  - cbn [participants set_participants].
    rewrite own_prop_visited, HA. cbn [fmap option_fmap option_map].
    by rewrite Hdrains.
  - unfold drained. cbn [iceCandidates set_iceCandidates].
    apply own_prop_set_eq. left. rewrite HB. eauto.
Qed.

(** A read for [B] returns nothing from a sender whose queue for [B] is
    empty. *)
Lemma read_candidates_empty (rooms : Rooms) R A B room data :
  rooms !! R = Some room →
  distinct (keys (participants room)) = true →
  own_prop (participants room) A = Some data →
  own_prop (iceCandidates data) B = Some [] →
  ∃ rooms',
    getIceCandidates R B rooms =
      (Return {| iceCandidates_out := omap (queued B) (participants room) |},
       rooms')
    ∧ sent_by A (omap (queued B) (participants room)) = [].
Proof.
  intros E Hd HA HB. eexists. split; [by apply getIceCandidates_spec|].
  rewrite (sent_by_contributed _ _ _ (queued_from B) Hd), HA.
  unfold queued, contributed, drains. cbn [fst snd].
  apply get_prop_Val in HB. rewrite HB. cbn. by rewrite andb_false_r.
Qed.

(** C1 as stated, for every sender and receiver, fails when the two are the
    same peer: in the lobby, where [a] has joined room [r], the candidates
    [a] sends to [a] are not returned to [a]. *)
Lemma candidates_to_self_not_returned :
  lobby !! "r" = Some room_ab
  ∧ distinct (keys (participants room_ab)) = true
  ∧ is_Some (own_prop (participants room_ab) "a")
  ∧ ¬ drained_in_one_read lobby "r" "a" "a" "c1" "c2" "c3".
Proof.
  split; [reflexivity|]. split; [reflexivity|]. split; [by eexists|].
  intros (room & r1 & r2 & r3 & r4 & r5 & b1 & b2
          & _ & _ & _ & _ & Hget & Hfrom & _).
  assert ({| fromPeerId := "a";
             payload := Val (pending room "a" "a" ++ ["c1"; "c2"; "c3"]) |}
            ∈ sent_by "a" b1) as Hin by (rewrite Hfrom; apply list_elem_of_here).
  unfold sent_by in Hin. apply list_elem_of_filter in Hin as [_ Hin].
  destruct (r3 !! "r") as [room3|] eqn:E3.
  - rewrite (getIceCandidates_spec _ _ _ _ E3) in Hget.
    injection Hget as <- _. by apply queued_not_self in Hin.
  - unfold getIceCandidates in Hget. by rewrite (in_room_None _ _ _ E3) in Hget.
Qed.

(** C1 (amended). In a room (a participant table is an object, so its keys
    are distinct), let [A] have a mailbox, let [B] be a different peer, and
    let [B] not be the name of a member objects inherit from
    [Object.prototype].  Then three [sendIceCandidate] calls
    from [A] to [B] succeed, the next [getIceCandidates] by [B] returns
    exactly one element from [A], which holds the three candidates in the
    order sent (after anything [A] had queued for [B] before), and the
    [getIceCandidates] by [B] right after returns no element from [A]: the
    first read emptied the queue. *)
Theorem candidates_drained_in_one_read
    (rooms : Rooms) (R : string) (room : Room) (A B c1 c2 c3 : string) :
  rooms !! R = Some room →
  distinct (keys (participants room)) = true →
  is_Some (own_prop (participants room) A) →
  A ≠ B →
  inherited B = None →
  drained_in_one_read rooms R A B c1 c2 c3.
Proof.
  intros E Hd HA Hne HB.
  destruct (send_candidate_step rooms R A B c1 room E HA HB)
    as (room1 & S1 & K1 & A1 & P1 & _).
  destruct (send_candidate_step (<[R := room1]> rooms) R A B c2 room1
              (lookup_insert_eq _ _ _) A1 HB)
    as (room2 & S2 & K2 & A2 & P2 & _).
  destruct (send_candidate_step (<[R := room2]> (<[R := room1]> rooms))
              R A B c3 room2 (lookup_insert_eq _ _ _) A2 HB)
    as (room3 & S3 & K3 & A3 & P3 & N3).
  set (rooms3 := <[R := room3]> (<[R := room2]> (<[R := room1]> rooms))) in *.
  assert (distinct (keys (participants room3)) = true) as Hd3
    by by rewrite K3, K2, K1.
  destruct (read_candidates_step rooms3 R A B room3 (lookup_insert_eq _ _ _)
              Hd3 Hne N3) as (room4 & data4 & G1 & F1 & K4 & A4 & Q4).
  assert (distinct (keys (participants room4)) = true) as Hd4
    by by rewrite K4.
  destruct (read_candidates_empty (<[R := room4]> rooms3) R A B room4 data4
              (lookup_insert_eq _ _ _) Hd4 A4 Q4) as (rooms5 & G2 & F2).
  exists room. do 7 eexists.
  split; [exact E|]. split; [exact S1|]. split; [exact S2|].
  split; [exact S3|]. split; [exact G1|]. split; [|split; [exact G2 | exact F2]].
  rewrite F1, P3, P2, P1. by rewrite <- !app_assoc.
Qed.

Lemma candidates_drained_in_one_read_witness :
  drained_in_one_read lobby "r" "a" "b" "c1" "c2" "c3".
Proof.
  apply (candidates_drained_in_one_read lobby "r" room_ab "a" "b").
  - reflexivity.
  - reflexivity.
  - by eexists.
  - discriminate.
  - reflexivity.
Defined.

(** On a recipient name that is inherited the send itself fails: the lookup
    in the sender's table of queues finds the inherited member, which is
    truthy and has no [push]. *)
Lemma candidate_for_inherited_name :
  sendIceCandidate "r" "a" "constructor" "c1" lobby = (Throw TypeError, lobby).
Proof. vm_compute. reflexivity. Qed.

(** *** Offers and answers *)

Section Description.
  Variables (table : Mailbox → obj string)
    (set_table : obj string → Mailbox → Mailbox).
  Hypothesis table_set_table : ∀ t data, table (set_table t data) = t.

(** Once [A] has written [s] for [B] in its table, the scan for [B] over
    the room returns exactly that from [A]. *)
Lemma description_returned room A B s data :
  distinct (keys (participants room)) = true →
  own_prop (participants room) A = Some data →
  A ≠ B → s ≠ "" → B ≠ "__proto__" →
  sent_by A
    (omap (addressed table B)
       (participants
          (stored A (set_table (set_prop B s (table data)) data) room))) =
    [ {| fromPeerId := A; payload := Val s |} ].
Proof.
  intros Hd HA Hne Hs HB.
  rewrite (sent_by_contributed _ _ _ (addressed_from table B))
    by by rewrite stored_keys.
  rewrite stored_own by eauto.
  unfold addressed, contributed. cbn [fst snd]. rewrite table_set_table.
  assert (get_prop (set_prop B s (table data)) B = Val s) as ->.
  { apply get_prop_Val, own_prop_set_eq. right.
    intros N. by apply inherited_accessor in N. }
  rewrite bool_decide_eq_true_2 by done. by destruct s.
Qed.
End Description.

(** An offer written under the key [__proto__] goes to the inherited
    setter and is lost: the registry is as before, and what a read for that
    key finds in every table is [Object.prototype]. *)
Lemma offer_for_proto_key :
  sendOffer "r" "a" "__proto__" "o" lobby = (Return ok, lobby)
  ∧ (getOffers "r" "__proto__" lobby).1 =
      Return {| offers_out :=
        [ {| fromPeerId := "a"; payload := Inherited "__proto__" Accessor |};
          {| fromPeerId := "b"; payload := Inherited "__proto__" Accessor |} ] |}.
Proof. split; vm_compute; reflexivity. Qed.

Lemma offer_forwarded (rooms : Rooms) R A B s room :
  rooms !! R = Some room →
  distinct (keys (participants room)) = true →
  is_Some (own_prop (participants room) A) →
  A ≠ B → s ≠ "" → B ≠ "__proto__" →
  ∃ room' out,
    sendOffer R A B s rooms = (Return ok, <[R := room']> rooms)
    ∧ keys (participants room') = keys (participants room)
    ∧ is_Some (own_prop (participants room') A)
    ∧ getOffers R B (<[R := room']> rooms) =
        (Return {| offers_out := out |}, <[R := room']> rooms)
    ∧ sent_by A out = [ {| fromPeerId := A; payload := Val s |} ].
Proof.
  intros E Hd [data HA] Hne Hs HB. eexists _, _.
  split; [by apply sendOffer_spec|]. split; [apply stored_keys|].
  split; [rewrite stored_own; eauto|].
  split; [apply getOffers_spec, lookup_insert_eq|].
  by apply (description_returned offers set_offers).
Qed.

Lemma answer_forwarded (rooms : Rooms) R A B s room :
  rooms !! R = Some room →
  distinct (keys (participants room)) = true →
  is_Some (own_prop (participants room) A) →
  A ≠ B → s ≠ "" → B ≠ "__proto__" →
  ∃ room' out,
    sendAnswer R A B s rooms = (Return ok, <[R := room']> rooms)
    ∧ keys (participants room') = keys (participants room)
    ∧ is_Some (own_prop (participants room') A)
    ∧ getAnswers R B (<[R := room']> rooms) =
        (Return {| answers_out := out |}, <[R := room']> rooms)
    ∧ sent_by A out = [ {| fromPeerId := A; payload := Val s |} ].
Proof.
  intros E Hd [data HA] Hne Hs HB. eexists _, _.
  split; [by apply sendAnswer_spec|]. split; [apply stored_keys|].
  split; [rewrite stored_own; eauto|].
  split; [apply getAnswers_spec, lookup_insert_eq|].
  by apply (description_returned answers set_answers).
Qed.

(** C2 as stated, for every sender and receiver, fails when the two are the
    same peer: the second offer [a] sends to [a] is not returned to [a]. *)
Lemma offer_to_self_not_returned :
  lobby !! "r" = Some room_ab
  ∧ distinct (keys (participants room_ab)) = true
  ∧ is_Some (own_prop (participants room_ab) "a")
  ∧ ¬ (last_offer_wins lobby "r" "a" "a" "o1" "o2"
       ∧ last_answer_wins lobby "r" "a" "a" "o1" "o2").
Proof.
  split; [reflexivity|]. split; [reflexivity|]. split; [by eexists|].
  intros [(r1 & r2 & r3 & out & _ & _ & Hget & Hfrom) _].
  assert ({| fromPeerId := "a"; payload := Val "o2" |} ∈ sent_by "a" out)
    as Hin by (rewrite Hfrom; apply list_elem_of_here).
  unfold sent_by in Hin. apply list_elem_of_filter in Hin as [_ Hin].
  destruct (r2 !! "r") as [room2|] eqn:E2.
  - rewrite (getOffers_spec _ _ _ _ E2) in Hget.
    injection Hget as <- _. by apply addressed_not_self in Hin.
  - unfold getOffers in Hget. by rewrite (in_room_None _ _ _ E2) in Hget.
Qed.

(** C2 (amended). In a room (a participant table is an object, so its keys
    are distinct), let [A] have a mailbox, let [B] be a different peer and
    not the key [__proto__], and let the second payload be non-empty.  Then
    after [A] sends [O1] and then [O2] to [B], [getOffers] by [B] returns
    exactly one element from [A] and it holds [O2]: one pending offer per
    directed pair, the last one written.  The same holds for [sendAnswer]
    and [getAnswers]. *)
Theorem last_write_wins
    (rooms : Rooms) (R : string) (room : Room) (A B O1 O2 : string) :
  rooms !! R = Some room →
  distinct (keys (participants room)) = true →
  is_Some (own_prop (participants room) A) →
  A ≠ B →
  O2 ≠ "" →
  B ≠ "__proto__" →
  last_offer_wins rooms R A B O1 O2 ∧ last_answer_wins rooms R A B O1 O2.
Proof.
  intros E Hd HA Hne HO HB. pose proof HA as [data HA'].
  split.
  - pose proof (sendOffer_spec rooms R A B O1 room data E HA') as S1.
    set (room1 := stored A (set_offers (set_prop B O1 (offers data)) data) room)
      in *.
    destruct (offer_forwarded (<[R := room1]> rooms) R A B O2 room1) as
      (room2 & out & S2 & _ & _ & G & F); try done.
    + apply lookup_insert_eq.
    + unfold room1. by rewrite stored_keys.
    + unfold room1. rewrite stored_own; eauto.
    + by exists (<[R := room1]> rooms), (<[R := room2]> (<[R := room1]> rooms)),
        (<[R := room2]> (<[R := room1]> rooms)), out.
  - pose proof (sendAnswer_spec rooms R A B O1 room data E HA') as S1.
    set (room1 := stored A (set_answers (set_prop B O1 (answers data)) data) room)
      in *.
    destruct (answer_forwarded (<[R := room1]> rooms) R A B O2 room1) as
      (room2 & out & S2 & _ & _ & G & F); try done.
    + apply lookup_insert_eq.
    + unfold room1. by rewrite stored_keys.
    + unfold room1. rewrite stored_own; eauto.
    + by exists (<[R := room1]> rooms), (<[R := room2]> (<[R := room1]> rooms)),
        (<[R := room2]> (<[R := room1]> rooms)), out.
Qed.

Lemma last_write_wins_witness :
  last_offer_wins lobby "r" "a" "b" "o1" "o2"
  ∧ last_answer_wins lobby "r" "a" "b" "o1" "o2".
Proof.
  apply (last_write_wins lobby "r" room_ab "a" "b" "o1" "o2").
  - reflexivity.
  - reflexivity.
  - by eexists.
  - discriminate.
  - discriminate.
  - discriminate.
Defined.

(** ** Where the code falls short of the specification *)

(** *** Senders that never joined *)

Lemma get_prop_Undefined {V} (o : obj V) k :
  get_prop o k = Undefined ↔ own_prop o k = None ∧ inherited k = None.
Proof.
  unfold get_prop. destruct (own_prop o k).
  - split; [done | by intros [? _]].
  - destruct (inherited k); [|done]. split; [done | by intros [_ ?]].
Qed.

(** A sender without a mailbox is turned away by all three sends, and the
    registry stays as it was; the error is the peer-not-found error
    whenever the sender's name is not one that objects inherit. *)
Lemma sender_without_mailbox (rooms : Rooms) R A B s room :
  rooms !! R = Some room →
  own_prop (participants room) A = None →
  ∃ e,
    sendOffer R A B s rooms = (Throw e, rooms)
    ∧ sendAnswer R A B s rooms = (Throw e, rooms)
    ∧ sendIceCandidate R A B s rooms = (Throw e, rooms)
    ∧ (inherited A = None → e = PeerNotFound A R)
    ∧ (is_Some (inherited A) → e = TypeError).
Proof.
  intros E HA. unfold sendOffer, sendAnswer, sendIceCandidate.
  rewrite !(in_room_Some _ _ _ _ E).
  destruct (inherited A) as [m|] eqn:HI.
  - assert (get_prop (participants room) A = Inherited A m) as G
      by (unfold get_prop; by rewrite HA, HI).
    exists TypeError. rewrite !(guarded_inherited _ _ _ _ _ _ G). cbn [fst snd].
    rewrite (insert_id _ _ _ E). by repeat split.
  - assert (get_prop (participants room) A = Undefined) as G
      by by apply get_prop_Undefined.
    exists (PeerNotFound A R). rewrite !(guarded_unknown _ _ _ _ _ G).
    cbn [fst snd]. rewrite (insert_id _ _ _ E).
    repeat split. by intros [? ?].
Qed.

(** C4, at the failing input.  In the lobby nobody is called [constructor],
    yet a send from that name is not answered with the peer-not-found
    error: the guard [!room.participants[fromPeerId]] sees the inherited
    member, lets the call through, and the write into the table of that
    member throws a [TypeError].  The registry is left as it was. *)
Theorem inherited_sender_passes_guard :
  own_prop (participants room_ab) "constructor" = None
  ∧ sendOffer "r" "constructor" "b" "o" lobby = (Throw TypeError, lobby)
  ∧ sendAnswer "r" "constructor" "b" "o" lobby = (Throw TypeError, lobby)
  ∧ sendIceCandidate "r" "constructor" "b" "o" lobby = (Throw TypeError, lobby)
  ∧ TypeError ≠ PeerNotFound "constructor" "r".
Proof.
  split; [reflexivity|].
  destruct (sender_without_mailbox lobby "r" "constructor" "b" "o" room_ab
              eq_refl eq_refl) as (e & H1 & H2 & H3 & _ & He).
  rewrite (He ltac:(by eexists)) in *. by repeat split.
Qed.

(** *** Empty payloads and unknown recipients *)

(** Any candidate, the empty string included, comes back as sent. *)
Lemma candidate_forwarded (rooms : Rooms) R A B c room :
  rooms !! R = Some room →
  distinct (keys (participants room)) = true →
  is_Some (own_prop (participants room) A) →
  A ≠ B →
  inherited B = None →
  ∃ rooms1 rooms2 batch,
    sendIceCandidate R A B c rooms = (Return ok, rooms1)
    ∧ getIceCandidates R B rooms1 =
        (Return {| iceCandidates_out := batch |}, rooms2)
    ∧ sent_by A batch =
        [ {| fromPeerId := A; payload := Val (pending room A B ++ [c]) |} ].
Proof.
  intros E Hd HA Hne HB.
  destruct (send_candidate_step rooms R A B c room E HA HB)
    as (room1 & S1 & K1 & A1 & P1 & N1).
  destruct (read_candidates_step (<[R := room1]> rooms) R A B room1
              (lookup_insert_eq _ _ _) ltac:(by rewrite K1) Hne N1)
    as (room2 & data2 & G & F & _).
  eexists _, _, _. split; [exact S1|]. split; [exact G|]. by rewrite F, P1.
Qed.

(** A recipient without a mailbox is no obstacle, as long as its name is
    not an inherited one and, for offers and answers, the payload is not
    empty. *)
Lemma unknown_recipient_tolerated (rooms : Rooms) R A B s room :
  rooms !! R = Some room →
  distinct (keys (participants room)) = true →
  is_Some (own_prop (participants room) A) →
  own_prop (participants room) B = None →
  inherited B = None →
  (s ≠ "" →
     (∃ rooms1 out,
        sendOffer R A B s rooms = (Return ok, rooms1)
        ∧ getOffers R B rooms1 = (Return {| offers_out := out |}, rooms1)
        ∧ sent_by A out = [ {| fromPeerId := A; payload := Val s |} ])
     ∧ (∃ rooms1 out,
          sendAnswer R A B s rooms = (Return ok, rooms1)
          ∧ getAnswers R B rooms1 = (Return {| answers_out := out |}, rooms1)
          ∧ sent_by A out = [ {| fromPeerId := A; payload := Val s |} ]))
  ∧ ∃ rooms1 rooms2 batch,
      sendIceCandidate R A B s rooms = (Return ok, rooms1)
      ∧ getIceCandidates R B rooms1 =
          (Return {| iceCandidates_out := batch |}, rooms2)
      ∧ sent_by A batch =
          [ {| fromPeerId := A; payload := Val (pending room A B ++ [s]) |} ].
Proof.
  intros E Hd HA HB HI.
  assert (A ≠ B) as Hne by (intros ->; destruct HA; congruence).
  assert (B ≠ "__proto__") as HP by (by intros ->).
  split; [|by apply candidate_forwarded].
  intros Hs. split.
  - destruct (offer_forwarded rooms R A B s room E Hd HA Hne Hs HP)
      as (room' & out & S & _ & _ & G & F).
    by exists (<[R := room']> rooms), out.
  - destruct (answer_forwarded rooms R A B s room E Hd HA Hne Hs HP)
      as (room' & out & S & _ & _ & G & F).
    by exists (<[R := room']> rooms), out.
Qed.

(** C7, at the failing input.  Nobody in the lobby is called [z].  The
    empty offer [a] sends to [z] is accepted and stored, and [getOffers]
    for [z] does not return it: the scan takes the empty string for an
    absent entry. *)
Theorem empty_offer_for_unknown_recipient_lost :
  own_prop (participants room_ab) "z" = None
  ∧ (sendOffer "r" "a" "z" "" lobby).1 = Return ok
  ∧ (∃ room data,
       (sendOffer "r" "a" "z" "" lobby).2 !! "r" = Some room
       ∧ own_prop (participants room) "a" = Some data
       ∧ own_prop (offers data) "z" = Some "")
  ∧ (getOffers "r" "z" (sendOffer "r" "a" "z" "" lobby).2).1 =
      Return {| offers_out := [] |}.
Proof.
  split; [reflexivity|]. split; [reflexivity|]. split.
  - eexists _, _. split; [|split]; reflexivity.
  - reflexivity.
Qed.

(** C8, at the failing input.  Between two joined peers an empty offer and
    an empty answer are accepted and then never handed to the reader,
    while the same calls with a non-empty payload hand it over unchanged. *)
Theorem empty_description_dropped :
  (sendOffer "r" "a" "b" "" lobby).1 = Return ok
  ∧ (getOffers "r" "b" (sendOffer "r" "a" "b" "" lobby).2).1 =
      Return {| offers_out := [] |}
  ∧ (sendAnswer "r" "a" "b" "" lobby).1 = Return ok
  ∧ (getAnswers "r" "b" (sendAnswer "r" "a" "b" "" lobby).2).1 =
      Return {| answers_out := [] |}
  ∧ (getOffers "r" "b" (sendOffer "r" "a" "b" "o" lobby).2).1 =
      Return {| offers_out := [ {| fromPeerId := "a"; payload := Val "o" |} ] |}.
Proof. repeat split; reflexivity. Qed.


(** * Further properties of the router *)

(** ** Tables *)

Lemma own_prop_is_Some {V} (o : obj V) k : is_Some (own_prop o k) ↔ k ∈ keys o.
Proof.
  destruct (own_prop o k) as [v|] eqn:E.
  - split; [intros _ | eauto].
    destruct (decide (k ∈ keys o)) as [|N]; [done|].
    apply own_prop_None in N. congruence.
  - split; [by intros [? ?]|]. intros Hin. by apply own_prop_None in E.
Qed.

Lemma update_prop_own {V} (o : obj V) k v :
  own_prop o k = Some v → update_prop k v o = o.
Proof.
  induction o as [|[k' v'] o IH]; [done|]. rewrite own_prop_cons.
  cbn [update_prop]. destruct (String.eqb k' k) eqn:E.
  - apply eqb_true in E. rewrite decide_True by done. by intros [= ->].
  - apply eqb_false in E. rewrite decide_False by done.
    intros H. by rewrite IH.
Qed.

(** Creating a property for [k] does not move the other keys. *)
Lemma filter_keys_define_index {V} i (o : obj V) k v :
  filter (fun id => id ≠ k) (keys (define_index i k v o)) =
    filter (fun id => id ≠ k) (keys o).
Proof.
  unfold keys. induction o as [|[k' v'] o IH].
  - cbn. by rewrite decide_False by (intros N; by apply N).
  - cbn [define_index]. destruct (array_index k') as [j|].
    + case_bool_decide.
      * rewrite !fmap_cons, !filter_cons. cbn [fst]. by rewrite IH.
      * rewrite fmap_cons, filter_cons. cbn [fst].
        by rewrite decide_False by (intros N; by apply N).
    + rewrite fmap_cons, filter_cons. cbn [fst].
      by rewrite decide_False by (intros N; by apply N).
Qed.

Lemma filter_keys_define {V} (o : obj V) k v :
  filter (fun id => id ≠ k) (keys (define_prop k v o)) =
    filter (fun id => id ≠ k) (keys o).
Proof.
  unfold define_prop. destruct (array_index k) as [i|].
  - apply filter_keys_define_index.
  - unfold keys. rewrite fmap_app, filter_app. cbn.
    rewrite decide_False by (intros N; by apply N). by rewrite app_nil_r.
Qed.

Lemma stored_same A data room :
  own_prop (participants room) A = Some data → stored A data room = room.
Proof.
  intros H. unfold stored. rewrite (update_prop_own _ _ _ H).
  apply set_participants_same.
Qed.

(** ** Failures *)

Lemma appRouter_no_room (q : request) (R : string) (rooms : Rooms) :
  room_of q = Some R →
  rooms !! R = None →
  appRouter q rooms = (Throw (NotFound R), rooms).
Proof.
  intros Hq E. destruct (appRouter_in_room q R Hq) as (A & body & f & ->).
  by rewrite fmap_proc, (in_room_None _ _ _ E).
Qed.

(** X1. A request that names a room the registry does not hold is answered
    with the room-not-found error and changes nothing, whatever else it
    carries: the room is looked up before the peer. *)
Theorem unknown_room_rejected (q : request) (R : string) (rooms : Rooms) :
  room_of q = Some R →
  rooms !! R = None →
  appRouter q rooms = (Throw (NotFound R), rooms).
Proof. apply appRouter_no_room. Qed.

Lemma unknown_room_rejected_witness :
  appRouter (SendOffer "nowhere" "ghost" "b" "o") lobby =
    (Throw (NotFound "nowhere"), lobby).
Proof.
  apply (unknown_room_rejected (SendOffer "nowhere" "ghost" "b" "o") "nowhere");
    reflexivity.
Defined.

(** A candidate for a recipient whose name the sender's table of queues
    only inherits is turned away, and nothing changes. *)
Lemma sendIceCandidate_blocked (rooms : Rooms) R A B c room data :
  rooms !! R = Some room →
  own_prop (participants room) A = Some data →
  own_prop (iceCandidates data) B = None →
  is_Some (inherited B) →
  sendIceCandidate R A B c rooms = (Throw TypeError, rooms).
Proof.
  intros E HA HB [m HI]. unfold sendIceCandidate.
  rewrite (in_room_Some _ _ _ _ E), (guarded_joined _ _ _ _ _ _ HA).
  unfold_proc. unfold get_prop. rewrite HB, HI. cbn [truthy negb fst snd].
  unfold ret. cbn [fst snd]. rewrite ?HB, ?HI. cbn [fst snd].
  by rewrite (stored_same _ _ _ HA), (insert_id _ _ _ E).
Qed.

(** X2. When a send succeeds.  [sendOffer] and [sendAnswer] succeed exactly
    when the room exists and the sender has a mailbox in it, for every
    recipient and every payload.  [sendIceCandidate] needs one thing more:
    the sender already holds a queue for the recipient, or the recipient's
    name is not one that objects inherit. *)
Theorem send_succeeds_iff (rooms : Rooms) (R A B s : string) :
  ((∃ rooms', sendOffer R A B s rooms = (Return ok, rooms'))
   ↔ ∃ room, rooms !! R = Some room
             ∧ is_Some (own_prop (participants room) A))
  ∧ ((∃ rooms', sendAnswer R A B s rooms = (Return ok, rooms'))
     ↔ ∃ room, rooms !! R = Some room
               ∧ is_Some (own_prop (participants room) A))
  ∧ ((∃ rooms', sendIceCandidate R A B s rooms = (Return ok, rooms'))
     ↔ ∃ room data,
         rooms !! R = Some room
         ∧ own_prop (participants room) A = Some data
         ∧ (is_Some (own_prop (iceCandidates data) B) ∨ inherited B = None)).
Proof.
  destruct (rooms !! R) as [room|] eqn:E.
  - destruct (own_prop (participants room) A) as [data|] eqn:HA.
    + split; [|split].
      * rewrite (sendOffer_spec _ _ _ _ _ _ _ E HA). split; eauto.
      * rewrite (sendAnswer_spec _ _ _ _ _ _ _ E HA). split; eauto.
      * destruct (own_prop (iceCandidates data) B) as [qu|] eqn:HB.
        { rewrite (sendIceCandidate_spec _ _ _ _ s _ _ E HA)
            by (rewrite HB; eauto).
          split; [intros _|eauto]. exists room, data. rewrite HB. eauto. }
        destruct (inherited B) as [m|] eqn:HI.
        { rewrite (sendIceCandidate_blocked _ _ _ _ s _ _ E HA HB) by eauto.
          split; [by intros [? ?]|].
          intros (room0 & data0 & [= <-] & HA0 & Hor). simplify_eq.
          rewrite HB in Hor. by destruct Hor as [[? ?]|?]. }
        rewrite (sendIceCandidate_spec _ _ _ _ s _ _ E HA) by eauto.
        split; [intros _|eauto]. exists room, data. eauto.
    + destruct (sender_without_mailbox rooms R A B s room E HA)
        as (e & -> & -> & -> & _).
      repeat split; try (by intros [? ?]).
      * intros (room0 & [= <-] & [? ?]). congruence.
      * intros (room0 & [= <-] & [? ?]). congruence.
      * intros (room0 & data0 & [= <-] & ? & _). congruence.
  - unfold sendOffer, sendAnswer, sendIceCandidate.
    rewrite !(in_room_None _ _ _ E).
    repeat split; try (by intros [? ?]).
    + by intros (? & ? & ?).
    + by intros (? & ? & ?).
    + by intros (? & ? & ? & ?).
Qed.

Lemma send_succeeds_iff_witness :
  ∃ rooms', sendIceCandidate "r" "a" "b" "c1" lobby = (Return ok, rooms').
Proof.
  apply (proj2 (proj2 (send_succeeds_iff lobby "r" "a" "b" "c1"))).
  exists room_ab, empty_mailbox.
  split; [reflexivity|]. split; [reflexivity|]. right. reflexivity.
Defined.

(** ** Rooms and rosters *)

(** X3. A room just created is empty, whatever the registry held under its
    identifier before: the first [joinRoom] returns no peers and the three
    reads return nothing, for every peer.  The other rooms are left as they
    were. *)
Theorem created_room_is_empty (rooms : Rooms) (uuid p : string) :
  (createRoom uuid rooms).1 = Return {| roomId := uuid |}
  ∧ (joinRoom uuid p (createRoom uuid rooms).2).1 = Return {| peers := [] |}
  ∧ (getOffers uuid p (createRoom uuid rooms).2).1 =
      Return {| offers_out := [] |}
  ∧ (getAnswers uuid p (createRoom uuid rooms).2).1 =
      Return {| answers_out := [] |}
  ∧ (getIceCandidates uuid p (createRoom uuid rooms).2).1 =
      Return {| iceCandidates_out := [] |}
  ∧ ∀ R, R ≠ uuid → (createRoom uuid rooms).2 !! R = rooms !! R.
Proof.
  set (fresh := {| id := uuid; participants := [] |}).
  assert ((createRoom uuid rooms).2 = <[uuid := fresh]> rooms) as -> by done.
  assert ((<[uuid := fresh]> rooms) !! uuid = Some fresh) as E
    by apply lookup_insert_eq.
  split; [done|].
  rewrite (joinRoom_spec _ _ _ _ E), (getOffers_spec _ _ _ _ E),
    (getAnswers_spec _ _ _ _ E), (getIceCandidates_spec _ _ _ _ E).
  split; [|split; [done|split; [done|split; [done|]]]].
  - cbn [fst]. f_equal. f_equal. unfold joined, fresh.
    cbn [participants]. unfold get_prop. cbn [own_prop].
    destruct (inherited p) as [m|] eqn:HI; cbn [truthy]; [done|].
    cbn [participants set_participants]. unfold set_prop. cbn [own_prop].
    rewrite HI, filter_keys_define. done.
  - intros R Hne. by rewrite lookup_insert_ne.
Qed.

Lemma created_room_is_empty_witness :
  (createRoom "r" lobby).2 !! "s" = Some room_c
  ∧ (joinRoom "r" "b" (createRoom "r" lobby).2).1 = Return {| peers := [] |}.
Proof.
  split.
  - apply (created_room_is_empty lobby "r" "b"). discriminate.
  - apply (created_room_is_empty lobby "r" "b").
Defined.

(** X4. The roster.  In an existing room [joinRoom] returns the peers that
    had a mailbox before the call, the caller left out, in the order the
    participant table enumerates them; so a peer is on the list exactly when
    it is another peer that holds a mailbox.  Whether the caller is new
    makes no difference. *)
Theorem joinRoom_roster (rooms : Rooms) (R p : string) (room : Room) :
  rooms !! R = Some room →
  (joinRoom R p rooms).1 =
    Return {| peers := filter (fun id => id ≠ p) (keys (participants room)) |}
  ∧ ∀ q, q ∈ filter (fun id => id ≠ p) (keys (participants room))
         ↔ q ≠ p ∧ is_Some (own_prop (participants room) q).
Proof.
  intros E. split.
  - rewrite (joinRoom_spec _ _ _ _ E). cbn [fst]. do 2 f_equal.
    unfold joined. destruct (truthy (get_prop (participants room) p)) eqn:T;
      [done|].
    assert (get_prop (participants room) p = Undefined) as U
      by by destruct (get_prop (participants room) p).
    cbn [participants set_participants].
    by rewrite (set_prop_undefined _ _ _ U), filter_keys_define.
  - intros q. by rewrite list_elem_of_filter, own_prop_is_Some.
Qed.

Lemma joinRoom_roster_witness :
  (joinRoom "r" "b" lobby).1 = Return {| peers := ["a"] |}.
Proof.
  apply (joinRoom_roster lobby "r" "b" room_ab). reflexivity.
Defined.

(** X5. A peer that joins for the first time, under a name objects do not
    inherit, gets a mailbox with nothing in it, and the mailbox of every
    other peer stays as it was. *)
Theorem joinRoom_new_peer (rooms : Rooms) (R p : string) (room : Room) :
  rooms !! R = Some room →
  own_prop (participants room) p = None →
  inherited p = None →
  ∃ room',
    (joinRoom R p rooms).2 !! R = Some room'
    ∧ id room' = id room
    ∧ own_prop (participants room') p = Some empty_mailbox
    ∧ ∀ q, q ≠ p →
        own_prop (participants room') q = own_prop (participants room) q.
Proof.
  intros E Hp HI. rewrite (joinRoom_spec _ _ _ _ E). cbn [snd].
  rewrite lookup_insert_eq. eexists. split; [done|].
  assert (get_prop (participants room) p = Undefined) as U
    by by apply get_prop_Undefined.
  unfold joined. rewrite U. cbn [truthy participants set_participants id].
  rewrite (set_prop_undefined _ _ _ U). split; [done|]. split.
  - by apply own_prop_define_eq.
  - intros q Hq. by apply own_prop_define_ne.
Qed.

Lemma joinRoom_new_peer_witness :
  ∃ room',
    (joinRoom "r" "d" {["r" := busy_room]}).2 !! "r" = Some room'
    ∧ id room' = "r"
    ∧ own_prop (participants room') "d" = Some empty_mailbox
    ∧ ∀ q, q ≠ "d" →
        own_prop (participants room') q = own_prop (participants busy_room) q.
Proof.
  apply (joinRoom_new_peer {["r" := busy_room]} "r" "d" busy_room);
    reflexivity.
Defined.

(** ** What a request leaves of a room *)

Lemma guarded_keys {T} (body : proc Mailbox T) R A room (b : SendOutput) :
  keys (participants
          ((sender ← read (fun room => get_prop (participants room) A);
            when (negb (truthy sender)) (throw (PeerNotFound A R)) ;;
            in_mailbox A body ;; ret b) room).2) = keys (participants room)
  ∧ id ((sender ← read (fun room => get_prop (participants room) A);
         when (negb (truthy sender)) (throw (PeerNotFound A R)) ;;
         in_mailbox A body ;; ret b) room).2 = id room.
Proof.
  unfold_proc.
  destruct (negb (truthy (get_prop (participants room) A))); [done|].
  unfold ret. destruct (in_mailbox_keys body A room) as [Hk Hi].
  by destruct (in_mailbox A body room) as [[t|e] room'].
Qed.

(** A request that names an existing room rewrites that room and no other.
    It keeps the room's identifier and its participants, except that
    [joinRoom] adds the caller when the caller is new and its name is not
    an inherited one. *)
Lemma appRouter_room_step q R (rooms : Rooms) room :
  room_of q = Some R →
  rooms !! R = Some room →
  ∃ room',
    (appRouter q rooms).2 = <[R := room']> rooms
    ∧ id room' = id room
    ∧ (keys (participants room') = keys (participants room)
       ∨ ∃ p, inherited p = None
              ∧ own_prop (participants room) p = None
              ∧ keys (participants room') ≡ₚ p :: keys (participants room)).
Proof.
  intros Hq E.
  destruct q as [u | r p | r a b s | r a b s | r a b s | r p | r p | r p];
    cbn [room_of] in Hq; try discriminate; injection Hq as ->;
    cbn [appRouter]; rewrite fmap_proc; cbn [snd].
  - rewrite (joinRoom_spec _ _ _ _ E). cbn [snd]. eexists. split; [done|].
    unfold joined.
    destruct (get_prop (participants room) p) as [d|k m|] eqn:G;
      cbn [truthy to_boolean Mailbox_to_boolean]; [by auto..|].
    split; [done|]. right. exists p.
    apply get_prop_Undefined in G as [G1 G2]. split; [done|]. split; [done|].
    cbn [participants set_participants]. unfold set_prop. rewrite G1, G2.
    apply keys_define.
  - unfold sendOffer. rewrite (in_room_Some _ _ _ _ E). cbn [snd].
    eexists. split; [done|].
    destruct (guarded_keys
      (write (fun data => set_offers (set_prop b s (offers data)) data))
      R a room {| success := true |}) as [Hk Hi].
    split; [exact Hi | left; exact Hk].
  - unfold sendAnswer. rewrite (in_room_Some _ _ _ _ E). cbn [snd].
    eexists. split; [done|].
    destruct (guarded_keys
      (write (fun data => set_answers (set_prop b s (answers data)) data))
      R a room {| success := true |}) as [Hk Hi].
    split; [exact Hi | left; exact Hk].
  - unfold sendIceCandidate. rewrite (in_room_Some _ _ _ _ E). cbn [snd].
    eexists. split; [done|].
    match goal with
    | |- context [in_mailbox a ?body] =>
        destruct (guarded_keys body R a room {| success := true |})
          as [Hk Hi]
    end.
    split; [exact Hi | left; exact Hk].
  - rewrite (getOffers_spec _ _ _ _ E). cbn [snd]. exists room.
    rewrite (insert_id _ _ _ E). auto.
  - rewrite (getAnswers_spec _ _ _ _ E). cbn [snd]. exists room.
    rewrite (insert_id _ _ _ E). auto.
  - rewrite (getIceCandidates_spec _ _ _ _ E). cbn [snd]. eexists.
    split; [done|]. cbn [participants set_participants id].
    split; [done|]. left. apply keys_visited.
Qed.

Lemma appRouter_other_room q R0 R (rooms : Rooms) :
  room_of q = Some R0 → R0 ≠ R → (appRouter q rooms).2 !! R = rooms !! R.
Proof.
  intros Hq Hne. destruct (appRouter_in_room q R0 Hq) as (A & body & f & ->).
  rewrite fmap_proc. cbn [snd]. by apply in_room_other.
Qed.

(** X6. What the coordinator keeps true of every room it can come to hold:
    the room is registered under its own identifier, no peer has two
    mailboxes, and no mailbox is kept under a name that objects inherit
    (such a peer is let into the room by [joinRoom] but never gets one). *)
Theorem reachable_rooms_well_kept (rooms : Rooms) :
  reachable rooms →
  ∀ R room,
    rooms !! R = Some room →
    id room = R
    ∧ NoDup (keys (participants room))
    ∧ ∀ p, is_Some (own_prop (participants room) p) → inherited p = None.
Proof.
  induction 1 as [|q rooms Hr IH]; [by intros R room; rewrite lookup_empty|].
  intros R room.
  destruct (room_of q) as [R0|] eqn:Hq.
  - destruct (decide (R0 = R)) as [->|Hne].
    + destruct (rooms !! R) as [room0|] eqn:E.
      * destruct (appRouter_room_step q R rooms room0 Hq E)
          as (room' & -> & Hid & Hkeys).
        rewrite lookup_insert_eq. intros [= <-].
        destruct (IH R room0 E) as (I1 & I2 & I3).
        split; [congruence|].
        destruct Hkeys as [Hk | (p & HI & Hp & Hk)].
        { split; [by rewrite Hk|]. intros p.
          rewrite !own_prop_is_Some, Hk, <- own_prop_is_Some. apply I3. }
        split.
        { rewrite Hk. apply NoDup_cons. split; [|done].
          by apply own_prop_None. }
        intros p'. rewrite own_prop_is_Some, Hk, elem_of_cons.
        intros [->|Hin]; [done|]. by apply I3, own_prop_is_Some.
      * rewrite (appRouter_no_room q R rooms Hq E). cbn [snd]. apply IH.
    + rewrite (appRouter_other_room q R0 R rooms Hq Hne). apply IH.
  - destruct q as [u| | | | | | |]; try discriminate.
    cbn [appRouter]. rewrite fmap_proc. cbn [snd].
    assert ((createRoom u rooms).2 =
            <[u := {| id := u; participants := [] |}]> rooms) as -> by done.
    destruct (decide (u = R)) as [->|Hne].
    + rewrite lookup_insert_eq. intros [= <-]. cbn [id participants].
      split; [done|]. split; [constructor|]. by intros p [? ?].
    + rewrite lookup_insert_ne by done. apply IH.
Qed.

Lemma reachable_rooms_well_kept_witness :
  id room_ab = "r"
  ∧ NoDup (keys (participants room_ab))
  ∧ ∀ p, is_Some (own_prop (participants room_ab) p) → inherited p = None.
Proof.
  apply (reachable_rooms_well_kept lobby).
  - assert (lobby =
      (appRouter (JoinRoom "s" "c")
        (appRouter (CreateRoom "s")
          (appRouter (JoinRoom "r" "b")
            (appRouter (JoinRoom "r" "a")
              (appRouter (CreateRoom "r") ∅).2).2).2).2).2) as ->
      by (vm_compute; reflexivity).
    repeat constructor.
  - reflexivity.
Defined.

(** X7. Nothing is ever removed.  Whatever the request, a registered room
    stays registered; and unless the request is [createRoom] handing out
    that very identifier again, the room keeps its identifier and every
    peer that had a mailbox in it still has one. *)
Theorem rooms_and_mailboxes_persist
    (q : request) (rooms : Rooms) (R : string) (room : Room) :
  rooms !! R = Some room →
  ∃ room',
    (appRouter q rooms).2 !! R = Some room'
    ∧ (q ≠ CreateRoom R →
       id room' = id room
       ∧ ∀ p, is_Some (own_prop (participants room) p) →
              is_Some (own_prop (participants room') p)).
Proof.
  intros E. destruct (room_of q) as [R0|] eqn:Hq.
  - destruct (decide (R0 = R)) as [->|Hne].
    + destruct (appRouter_room_step q R rooms room Hq E)
        as (room' & -> & Hid & Hkeys).
      exists room'. rewrite lookup_insert_eq. split; [done|]. intros _.
      split; [done|]. intros p. rewrite !own_prop_is_Some.
      destruct Hkeys as [-> | (p' & _ & _ & ->)]; [done|].
      rewrite elem_of_cons. auto.
    + exists room. rewrite (appRouter_other_room q R0 R rooms Hq Hne).
      by split.
  - destruct q as [u| | | | | | |]; try discriminate.
    cbn [appRouter]. rewrite fmap_proc. cbn [snd].
    assert ((createRoom u rooms).2 =
            <[u := {| id := u; participants := [] |}]> rooms) as -> by done.
    destruct (decide (u = R)) as [->|Hne].
    + eexists. rewrite lookup_insert_eq. split; [done|]. by intros N.
    + exists room. rewrite lookup_insert_ne by done. by split.
Qed.

Lemma rooms_and_mailboxes_persist_witness :
  ∃ room',
    (appRouter (GetIceCandidates "r" "b") {["r" := busy_room]}).2 !! "r"
      = Some room'
    ∧ id room' = "r"
    ∧ ∀ p, is_Some (own_prop (participants busy_room) p) →
           is_Some (own_prop (participants room') p).
Proof.
  destruct (rooms_and_mailboxes_persist (GetIceCandidates "r" "b")
              {["r" := busy_room]} "r" busy_room)
    as (room' & H1 & H2); [reflexivity|].
  exists room'. split; [exact H1|]. apply H2. discriminate.
Defined.

(** ** One cell at a time *)

Lemma cell_lookup (rooms : Rooms) R room ch from to :
  rooms !! R = Some room →
  cell rooms R ch from to =
    (data ← own_prop (participants room) from; slot ch data to).
Proof. intros E. unfold cell. by rewrite E. Qed.

Lemma cell_same_room (rooms rooms' : Rooms) R ch from to :
  rooms' !! R = rooms !! R → cell rooms' R ch from to = cell rooms R ch from to.
Proof. intros E. unfold cell. by rewrite E. Qed.

Lemma cell_stored (rooms : Rooms) R room A data data' ch from to :
  rooms !! R = Some room →
  own_prop (participants room) A = Some data →
  (from = A → slot ch data' to = slot ch data to) →
  cell (<[R := stored A data' room]> rooms) R ch from to =
    cell rooms R ch from to.
Proof.
  intros E HA Hslot.
  rewrite (cell_lookup _ _ _ _ _ _ (lookup_insert_eq _ _ _)),
    (cell_lookup _ _ _ _ _ _ E).
  destruct (decide (from = A)) as [->|Hne].
  - rewrite stored_own, HA by eauto. cbn. auto.
  - unfold stored. cbn [participants set_participants].
    by rewrite own_prop_update_ne.
Qed.

(** X8. Every request leaves alone the cells it is not meant to write.  A
    send changes at most the one cell of its channel, sender and recipient;
    [getIceCandidates] changes at most the candidate queues the other peers
    hold for the reader; [joinRoom], [getOffers] and [getAnswers] change no
    cell at all; and [createRoom] changes no cell of a room other than the
    one whose identifier it is given. *)
Theorem untouched_cells (q : request) (rooms : Rooms) (R : string)
    (ch : channel) (from to : string) :
  writes q R ch from to = false →
  cell (appRouter q rooms).2 R ch from to = cell rooms R ch from to.
Proof.
  intros W. destruct (room_of q) as [R0|] eqn:Hq.
  2:{ destruct q as [u| | | | | | |]; try discriminate.
      cbn [writes] in W. apply bool_decide_eq_false in W.
      apply cell_same_room. cbn [appRouter]. rewrite fmap_proc. cbn [snd].
      assert ((createRoom u rooms).2 =
              <[u := {| id := u; participants := [] |}]> rooms) as -> by done.
      by rewrite lookup_insert_ne. }
  destruct (decide (R0 = R)) as [->|Hne];
    [|by apply cell_same_room, (appRouter_other_room q R0)].
  destruct (rooms !! R) as [room|] eqn:E;
    [|by rewrite (appRouter_no_room q R rooms Hq E)].
  destruct q as [u | r p | r a b s | r a b s | r a b s | r p | r p | r p];
    cbn [room_of] in Hq; try discriminate; injection Hq as ->;
    cbn [appRouter writes] in *; rewrite fmap_proc; cbn [snd];
    try apply bool_decide_eq_false in W.
  - (* joinRoom *)
    rewrite (joinRoom_spec _ _ _ _ E). cbn [snd].
    rewrite (cell_lookup _ _ _ _ _ _ (lookup_insert_eq _ _ _)),
      (cell_lookup _ _ _ _ _ _ E).
    unfold joined.
    destruct (get_prop (participants room) p) as [d|k m|] eqn:G;
      cbn [truthy to_boolean Mailbox_to_boolean]; [done..|].
    cbn [participants set_participants].
    rewrite (set_prop_undefined _ _ _ G).
    apply get_prop_Undefined in G as [G1 G2].
    destruct (decide (p = from)) as [<-|Hne].
    + rewrite own_prop_define_eq, G1 by done. by destruct ch.
    + by rewrite own_prop_define_ne.
  - (* sendOffer *)
    destruct (own_prop (participants room) a) as [data|] eqn:HA.
    + rewrite (sendOffer_spec _ _ _ _ _ _ _ E HA). cbn [snd].
      apply (cell_stored _ _ _ _ data); [done..|]. intros ->.
      destruct ch; cbn [slot set_offers offers answers iceCandidates]; try done.
      rewrite own_prop_set_ne; [done|]. intros ->. by apply W.
    + by destruct (sender_without_mailbox rooms R a b s room E HA)
        as (e & -> & _).
  - (* sendAnswer *)
    destruct (own_prop (participants room) a) as [data|] eqn:HA.
    + rewrite (sendAnswer_spec _ _ _ _ _ _ _ E HA). cbn [snd].
      apply (cell_stored _ _ _ _ data); [done..|]. intros ->.
      destruct ch; cbn [slot set_answers offers answers iceCandidates]; try done.
      rewrite own_prop_set_ne; [done|]. intros ->. by apply W.
    + by destruct (sender_without_mailbox rooms R a b s room E HA)
        as (e & _ & -> & _).
  - (* sendIceCandidate *)
    destruct (own_prop (participants room) a) as [data|] eqn:HA.
    + destruct (own_prop (iceCandidates data) b) as [qu|] eqn:HB;
        [|destruct (inherited b) as [m|] eqn:HI].
      2:{ by rewrite (sendIceCandidate_blocked _ _ _ _ s _ _ E HA HB)
            by eauto. }
      all: rewrite (sendIceCandidate_spec _ _ _ _ s _ _ E HA)
             by (rewrite ?HB; eauto);
        cbn [snd]; apply (cell_stored _ _ _ _ data); [done..|]; intros ->;
        destruct ch;
        cbn [slot set_iceCandidates offers answers iceCandidates]; try done;
        rewrite own_prop_enqueued_ne; [done|]; intros ->; by apply W.
    + by destruct (sender_without_mailbox rooms R a b s room E HA)
        as (e & _ & _ & -> & _).
  - (* getOffers *)
    by rewrite (getOffers_spec _ _ _ _ E).
  - (* getAnswers *)
    by rewrite (getAnswers_spec _ _ _ _ E).
  - (* getIceCandidates *)
    rewrite (getIceCandidates_spec _ _ _ _ E). cbn [snd].
    rewrite (cell_lookup _ _ _ _ _ _ (lookup_insert_eq _ _ _)),
      (cell_lookup _ _ _ _ _ _ E).
    cbn [participants set_participants]. rewrite own_prop_visited.
    destruct (own_prop (participants room) from) as [data|]; [|done].
    cbn. unfold drains.
    destruct (bool_decide (from ≠ p)) eqn:Hfp; [|done].
    apply bool_decide_eq_true in Hfp. case_match; [|done].
    destruct ch; cbn [slot drained set_iceCandidates offers answers
                        iceCandidates]; try done.
    rewrite own_prop_set_ne; [done|]. intros ->. by apply W.
Qed.

Lemma untouched_cells_witness :
  cell (appRouter (GetIceCandidates "r" "b") {["r" := busy_room]}).2
       "r" OfferChannel "a" "b" = Some (inl "o1").
Proof.
  rewrite (untouched_cells (GetIceCandidates "r" "b") {["r" := busy_room]}
             "r" OfferChannel "a" "b"); reflexivity.
Defined.

(** ** What a peer reads *)

Lemma get_prop_other {V} (o o' : obj V) k :
  own_prop o' k = own_prop o k → get_prop o' k = get_prop o k.
Proof. intros H. unfold get_prop. by rewrite H. Qed.

Lemma omap_update_prop {E} (f : string * Mailbox → option E)
    (o : obj Mailbox) k v v' :
  own_prop o k = Some v → f (k, v') = f (k, v) →
  omap f (update_prop k v' o) = omap f o.
Proof.
  intros H Hf. induction o as [|[k' w] o IH]; [done|].
  rewrite own_prop_cons in H. cbn [update_prop].
  destruct (String.eqb k' k) eqn:Ek.
  - apply eqb_true in Ek. subst k'. rewrite decide_True in H by done.
    injection H as ->. cbn [omap list_omap]. by rewrite Hf.
  - apply eqb_false in Ek. rewrite decide_False in H by done.
    cbn [omap list_omap]. by rewrite IH.
Qed.

Lemma omap_define_index {E} (f : string * Mailbox → option E)
    i (o : obj Mailbox) k v :
  f (k, v) = None → omap f (define_index i k v o) = omap f o.
Proof.
  intros Hf. induction o as [|[k' w] o IH].
  - cbn. by rewrite Hf.
  - cbn [define_index]. destruct (array_index k') as [j|].
    + case_bool_decide.
      * cbn [omap list_omap]. by rewrite IH.
      * change (omap f ((k, v) :: (k', w) :: o))
          with (match f (k, v) with
                | Some e => e :: omap f ((k', w) :: o)
                | None => omap f ((k', w) :: o)
                end).
        by rewrite Hf.
    + change (omap f ((k, v) :: (k', w) :: o))
        with (match f (k, v) with
              | Some e => e :: omap f ((k', w) :: o)
              | None => omap f ((k', w) :: o)
              end).
      by rewrite Hf.
Qed.

Lemma omap_define_prop {E} (f : string * Mailbox → option E)
    (o : obj Mailbox) k v :
  f (k, v) = None → omap f (define_prop k v o) = omap f o.
Proof.
  intros Hf. unfold define_prop. destruct (array_index k) as [i|].
  - by apply omap_define_index.
  - rewrite omap_app. cbn. by rewrite Hf, app_nil_r.
Qed.

Lemma omap_visited {E} (f : string * Mailbox → option E) test rewrite_data
    (o : obj Mailbox) :
  (∀ k d, test k d = true → f (k, rewrite_data d) = f (k, d)) →
  omap f (visited test rewrite_data <$> o) = omap f o.
Proof.
  intros Hf. induction o as [|[k d] o IH]; [done|].
  rewrite fmap_cons. cbn [omap list_omap]. rewrite IH.
  unfold visited at 1. cbn [fst snd].
  destruct (test k d) eqn:T; [|done]. by rewrite (Hf _ _ T).
Qed.

(** What the three reads return depends on a mailbox only through what its
    three tables hold for the reader. *)
Lemma contributions_alike C k d d' :
  own_prop (offers d') C = own_prop (offers d) C →
  own_prop (answers d') C = own_prop (answers d) C →
  own_prop (iceCandidates d') C = own_prop (iceCandidates d) C →
  addressed offers C (k, d') = addressed offers C (k, d)
  ∧ addressed answers C (k, d') = addressed answers C (k, d)
  ∧ queued C (k, d') = queued C (k, d).
Proof.
  intros H1 H2 H3. unfold addressed, queued, contributed, drains.
  cbn [fst snd].
  by rewrite (get_prop_other _ _ _ H1), (get_prop_other _ _ _ H2),
    (get_prop_other _ _ _ H3).
Qed.

Lemma reads_of_room (rooms : Rooms) R room C :
  rooms !! R = Some room →
  (getOffers R C rooms).1 =
    Return {| offers_out := omap (addressed offers C) (participants room) |}
  ∧ (getAnswers R C rooms).1 =
      Return {| answers_out := omap (addressed answers C) (participants room) |}
  ∧ (getIceCandidates R C rooms).1 =
      Return {| iceCandidates_out := omap (queued C) (participants room) |}.
Proof.
  intros E.
  by rewrite (getOffers_spec _ _ _ _ E), (getAnswers_spec _ _ _ _ E),
    (getIceCandidates_spec _ _ _ _ E).
Qed.

Lemma reads_same_room (rooms rooms' : Rooms) R C :
  rooms' !! R = rooms !! R →
  (getOffers R C rooms').1 = (getOffers R C rooms).1
  ∧ (getAnswers R C rooms').1 = (getAnswers R C rooms).1
  ∧ (getIceCandidates R C rooms').1 = (getIceCandidates R C rooms).1.
Proof.
  intros E. unfold getOffers, getAnswers, getIceCandidates.
  split; [|split]; by apply in_room_local.
Qed.

Lemma reads_alike (rooms : Rooms) R room room' C :
  rooms !! R = Some room →
  omap (addressed offers C) (participants room') =
    omap (addressed offers C) (participants room) →
  omap (addressed answers C) (participants room') =
    omap (addressed answers C) (participants room) →
  omap (queued C) (participants room') = omap (queued C) (participants room) →
  (getOffers R C (<[R := room']> rooms)).1 = (getOffers R C rooms).1
  ∧ (getAnswers R C (<[R := room']> rooms)).1 = (getAnswers R C rooms).1
  ∧ (getIceCandidates R C (<[R := room']> rooms)).1 =
      (getIceCandidates R C rooms).1.
Proof.
  intros E H1 H2 H3.
  destruct (reads_of_room rooms R room C E) as (-> & -> & ->).
  destruct (reads_of_room (<[R := room']> rooms) R room' C
              (lookup_insert_eq _ _ _)) as (-> & -> & ->).
  by rewrite H1, H2, H3.
Qed.

Lemma reads_stored (rooms : Rooms) R room A data data' C :
  rooms !! R = Some room →
  own_prop (participants room) A = Some data →
  own_prop (offers data') C = own_prop (offers data) C →
  own_prop (answers data') C = own_prop (answers data) C →
  own_prop (iceCandidates data') C = own_prop (iceCandidates data) C →
  (getOffers R C (<[R := stored A data' room]> rooms)).1 =
    (getOffers R C rooms).1
  ∧ (getAnswers R C (<[R := stored A data' room]> rooms)).1 =
      (getAnswers R C rooms).1
  ∧ (getIceCandidates R C (<[R := stored A data' room]> rooms)).1 =
      (getIceCandidates R C rooms).1.
Proof.
  intros E HA H1 H2 H3.
  destruct (contributions_alike C A data data' H1 H2 H3) as (F1 & F2 & F3).
  apply (reads_alike _ _ room); [done|..]; unfold stored;
    cbn [participants set_participants];
    by apply (omap_update_prop _ _ _ data).
Qed.

(** X9. What a peer reads changes only through what is addressed to it.
    Let [C] be a name objects do not inherit.  A request that is neither a
    send to [C] in room [R], nor [getIceCandidates] by [C] in [R], nor
    [createRoom] handing out [R] again, leaves what [getOffers],
    [getAnswers] and [getIceCandidates] return to [C] in [R] as it was: so
    do sends to others, reads by others (their draining included), joins,
    and everything in other rooms. *)
Theorem reads_undisturbed (q : request) (rooms : Rooms) (R C : string) :
  disturbs q R C = false →
  inherited C = None →
  (getOffers R C (appRouter q rooms).2).1 = (getOffers R C rooms).1
  ∧ (getAnswers R C (appRouter q rooms).2).1 = (getAnswers R C rooms).1
  ∧ (getIceCandidates R C (appRouter q rooms).2).1 =
      (getIceCandidates R C rooms).1.
Proof.
  intros W HC. destruct (room_of q) as [R0|] eqn:Hq.
  2:{ destruct q as [u| | | | | | |]; try discriminate.
      cbn [disturbs] in W. apply bool_decide_eq_false in W.
      apply reads_same_room. cbn [appRouter]. rewrite fmap_proc. cbn [snd].
      assert ((createRoom u rooms).2 =
              <[u := {| id := u; participants := [] |}]> rooms) as -> by done.
      by rewrite lookup_insert_ne. }
  destruct (decide (R0 = R)) as [->|Hne];
    [|by apply reads_same_room, (appRouter_other_room q R0)].
  destruct (rooms !! R) as [room|] eqn:E;
    [|by rewrite (appRouter_no_room q R rooms Hq E)].
  destruct q as [u | r p | r a b s | r a b s | r a b s | r p | r p | r p];
    cbn [room_of] in Hq; try discriminate; injection Hq as ->;
    cbn [appRouter disturbs] in *; rewrite fmap_proc; cbn [snd];
    try apply bool_decide_eq_false in W.
  - (* joinRoom *)
    rewrite (joinRoom_spec _ _ _ _ E). cbn [snd].
    unfold joined.
    destruct (get_prop (participants room) p) as [d|k m|] eqn:G;
      cbn [truthy to_boolean Mailbox_to_boolean];
      [by rewrite (insert_id _ _ _ E)..|].
    apply (reads_alike _ _ room); [done|..];
      cbn [participants set_participants];
      rewrite (set_prop_undefined _ _ _ G); apply omap_define_prop;
      unfold addressed, queued, contributed, drains, get_prop;
      cbn [fst snd empty_mailbox offers answers iceCandidates own_prop];
      rewrite HC; cbn [truthy]; by rewrite ?andb_false_r.
  - (* sendOffer *)
    destruct (own_prop (participants room) a) as [data|] eqn:HA.
    + rewrite (sendOffer_spec _ _ _ _ _ _ _ E HA). cbn [snd].
      apply (reads_stored _ _ _ _ data); [done..| |done|done].
      cbn [set_offers offers]. apply own_prop_set_ne. intros ->. by apply W.
    + by destruct (sender_without_mailbox rooms R a b s room E HA)
        as (e & -> & _).
  - (* sendAnswer *)
    destruct (own_prop (participants room) a) as [data|] eqn:HA.
    + rewrite (sendAnswer_spec _ _ _ _ _ _ _ E HA). cbn [snd].
      apply (reads_stored _ _ _ _ data); [done..|done| |done].
      cbn [set_answers answers]. apply own_prop_set_ne. intros ->.
      by apply W.
    + by destruct (sender_without_mailbox rooms R a b s room E HA)
        as (e & _ & -> & _).
  - (* sendIceCandidate *)
    destruct (own_prop (participants room) a) as [data|] eqn:HA.
    + destruct (own_prop (iceCandidates data) b) as [qu|] eqn:HB;
        [|destruct (inherited b) as [m|] eqn:HI].
      2:{ by rewrite (sendIceCandidate_blocked _ _ _ _ s _ _ E HA HB)
            by eauto. }
      all: rewrite (sendIceCandidate_spec _ _ _ _ s _ _ E HA)
             by (rewrite ?HB; eauto);
        cbn [snd]; apply (reads_stored _ _ _ _ data); [done..|];
        cbn [set_iceCandidates iceCandidates]; apply own_prop_enqueued_ne;
        intros ->; by apply W.
    + by destruct (sender_without_mailbox rooms R a b s room E HA)
        as (e & _ & _ & -> & _).
  - (* getOffers *)
    by rewrite (getOffers_spec _ _ _ _ E).
  - (* getAnswers *)
    by rewrite (getAnswers_spec _ _ _ _ E).
  - (* getIceCandidates *)
    rewrite (getIceCandidates_spec _ _ _ _ E). cbn [snd].
    assert (∀ d,
      own_prop (iceCandidates (drained p d)) C = own_prop (iceCandidates d) C)
      as Hd.
    { intros d. unfold drained. cbn [set_iceCandidates iceCandidates].
      apply own_prop_set_ne. intros ->. by apply W. }
    apply (reads_alike _ _ room); [done|..];
      cbn [participants set_participants]; apply omap_visited; intros k d _;
      by apply (contributions_alike C k d (drained p d)).
Qed.

Lemma reads_undisturbed_witness :
  (getIceCandidates "r" "b"
     (appRouter (GetIceCandidates "r" "c") {["r" := busy_room]}).2).1 =
    (getIceCandidates "r" "b" {["r" := busy_room]}).1.
Proof.
  apply (reads_undisturbed (GetIceCandidates "r" "c") {["r" := busy_room]}
           "r" "b"); reflexivity.
Defined.

(** ** Candidates in order, once *)

Lemma send_candidates_steps cs : ∀ (rooms : Rooms) R A B room,
  rooms !! R = Some room →
  is_Some (own_prop (participants room) A) →
  inherited B = None →
  ∃ room',
    sendIceCandidates R A B cs rooms = (Return ok, <[R := room']> rooms)
    ∧ keys (participants room') = keys (participants room)
    ∧ is_Some (own_prop (participants room') A)
    ∧ pending room' A B = pending room A B ++ cs.
Proof.
  induction cs as [|c cs IH]; intros rooms R A B room E HA HB.
  - exists room. cbn [sendIceCandidates]. unfold ret.
    by rewrite (insert_id _ _ _ E), app_nil_r.
  - destruct (send_candidate_step rooms R A B c room E HA HB)
      as (room1 & S1 & K1 & A1 & P1 & _).
    destruct (IH (<[R := room1]> rooms) R A B room1
                (lookup_insert_eq _ _ _) A1 HB) as (room' & S & K & A' & P).
    exists room'. cbn [sendIceCandidates]. unfold_proc. rewrite S1, S.
    rewrite insert_insert_eq. split; [done|]. split; [congruence|].
    split; [done|]. by rewrite P, P1, <- app_assoc.
Qed.

(** A read for [B] hands over what [A] has pending for [B] and leaves
    nothing pending. *)
Lemma read_candidates_batch (rooms : Rooms) R A B room :
  rooms !! R = Some room →
  distinct (keys (participants room)) = true →
  is_Some (own_prop (participants room) A) →
  A ≠ B →
  inherited B = None →
  ∃ room',
    getIceCandidates R B rooms =
      (Return {| iceCandidates_out := omap (queued B) (participants room) |},
       <[R := room']> rooms)
    ∧ sent_by A (omap (queued B) (participants room)) =
        batch A (pending room A B)
    ∧ keys (participants room') = keys (participants room)
    ∧ is_Some (own_prop (participants room') A)
    ∧ pending room' A B = [].
Proof.
  intros E Hd [data HA] Hne HB.
  eexists. split; [by apply getIceCandidates_spec|].
  rewrite (sent_by_contributed _ _ _ (queued_from B) Hd), HA.
  unfold pending. cbn [participants set_participants].
  rewrite own_prop_visited, HA. cbn [fmap option_fmap option_map].
  unfold queued, contributed, drains, get_prop. cbn [fst snd].
  rewrite bool_decide_eq_true_2 by done.
  destruct (own_prop (iceCandidates data) B) as [[|c cs]|] eqn:Q;
    rewrite ?HB; cbn [truthy to_boolean array_to_boolean length_positive
                        default andb length];
    rewrite ?Q; cbn [default].
  - rewrite bool_decide_eq_false_2 by (cbn; lia).
    rewrite Q. by rewrite keys_visited.
  - rewrite bool_decide_eq_true_2 by (cbn; lia).
    split; [done|]. split; [apply keys_visited|]. split; [eauto|].
    unfold drained. cbn [iceCandidates set_iceCandidates].
    rewrite own_prop_set_eq; [done|]. left. rewrite Q. eauto.
  - rewrite ?Q. rewrite keys_visited. cbn [default]. eauto.
Qed.

(** X10. Candidates arrive in order and once.  Let [A] have a mailbox, [B]
    be another peer whose name objects do not inherit.  After [A] has sent
    the candidates [cs1] to [B] one by one, a read by [B] returns from [A]
    one element holding what was pending followed by [cs1], in the order
    sent (no element if that is empty); and after [A] has then sent [cs2],
    the next read by [B] returns from [A] exactly [cs2]: nothing is lost,
    reordered or handed over twice. *)
Theorem candidates_in_order_once
    (rooms : Rooms) (R : string) (room : Room) (A B : string)
    (cs1 cs2 : list string) :
  rooms !! R = Some room →
  distinct (keys (participants room)) = true →
  is_Some (own_prop (participants room) A) →
  A ≠ B →
  inherited B = None →
  ∃ rooms1 rooms2 rooms3 rooms4 out1 out2,
    sendIceCandidates R A B cs1 rooms = (Return ok, rooms1)
    ∧ getIceCandidates R B rooms1 =
        (Return {| iceCandidates_out := out1 |}, rooms2)
    ∧ sent_by A out1 = batch A (pending room A B ++ cs1)
    ∧ sendIceCandidates R A B cs2 rooms2 = (Return ok, rooms3)
    ∧ getIceCandidates R B rooms3 =
        (Return {| iceCandidates_out := out2 |}, rooms4)
    ∧ sent_by A out2 = batch A cs2.
Proof.
  intros E Hd HA Hne HB.
  destruct (send_candidates_steps cs1 rooms R A B room E HA HB)
    as (room1 & S1 & K1 & A1 & P1).
  destruct (read_candidates_batch (<[R := room1]> rooms) R A B room1
              (lookup_insert_eq _ _ _) ltac:(by rewrite K1) A1 Hne HB)
    as (room2 & G1 & F1 & K2 & A2 & P2).
  destruct (send_candidates_steps cs2 (<[R := room2]> (<[R := room1]> rooms))
              R A B room2 (lookup_insert_eq _ _ _) A2 HB)
    as (room3 & S3 & K3 & A3 & P3).
  destruct (read_candidates_batch
              (<[R := room3]> (<[R := room2]> (<[R := room1]> rooms)))
              R A B room3 (lookup_insert_eq _ _ _)
              ltac:(by rewrite K3, K2, K1) A3 Hne HB)
    as (room4 & G2 & F2 & _).
  do 6 eexists. split; [exact S1|]. split; [exact G1|].
  split; [by rewrite F1, P1|]. split; [exact S3|]. split; [exact G2|].
  by rewrite F2, P3, P2.
Qed.

Lemma candidates_in_order_once_witness :
  ∃ rooms1 rooms2 rooms3 rooms4 out1 out2,
    sendIceCandidates "r" "a" "b" ["c3"] {["r" := busy_room]}
      = (Return ok, rooms1)
    ∧ getIceCandidates "r" "b" rooms1 =
        (Return {| iceCandidates_out := out1 |}, rooms2)
    ∧ sent_by "a" out1 = batch "a" (["c1"; "c2"] ++ ["c3"])
    ∧ sendIceCandidates "r" "a" "b" ["c4"; "c5"] rooms2 = (Return ok, rooms3)
    ∧ getIceCandidates "r" "b" rooms3 =
        (Return {| iceCandidates_out := out2 |}, rooms4)
    ∧ sent_by "a" out2 = batch "a" ["c4"; "c5"].
Proof.
  apply (candidates_in_order_once {["r" := busy_room]} "r" busy_room "a" "b"
           ["c3"] ["c4"; "c5"]).
  - reflexivity.
  - reflexivity.
  - by eexists.
  - discriminate.
  - reflexivity.
Defined.

(** ** The shape of a read result *)

Lemma senders_follow_keys {P} (test : string → Mailbox → bool)
    (element : string → Mailbox → Received P) p (entries : obj Mailbox) :
  (∀ k d, fromPeerId (element k d) = k) →
  (∀ k d, test k d = true → k ≠ p) →
  fromPeerId <$> omap (contributed test element) entries
    `sublist_of` filter (fun id => id ≠ p) (keys entries).
Proof.
  intros Hfrom Htest. unfold keys.
  induction entries as [|[k d] entries IH]; [done|].
  rewrite fmap_cons, filter_cons. cbn [fst omap list_omap].
  unfold contributed at 1. cbn [fst snd].
  destruct (test k d) eqn:T.
  - rewrite decide_True by by apply (Htest k d).
    rewrite fmap_cons, Hfrom. by apply sublist_skip.
  - case_decide; [by apply sublist_cons | done].
Qed.

Lemma contributed_passed {E} (test : string → Mailbox → bool)
    (element : string → Mailbox → E) (entries : obj Mailbox) e :
  e ∈ omap (contributed test element) entries →
  ∃ k d, test k d = true ∧ e = element k d.
Proof.
  rewrite list_elem_of_omap. intros ([k d] & _ & He).
  unfold contributed in He. cbn [fst snd] in He.
  destruct (test k d) eqn:T; [|done]. injection He as <-. eauto.
Qed.

(** X11. The shape of what a read returns.  In an existing room the three
    reads return for every reader, joined or not.  The senders they report
    form a sub-sequence of the roster [joinRoom] would give the reader (the
    other participants, in the order of the table), so each sender occurs
    at most once and the reader never; and no element carries an absent or
    empty payload: no [undefined], no empty offer or answer, no empty list
    of candidates. *)
Theorem read_results_follow_roster (rooms : Rooms) (R p : string) (room : Room) :
  rooms !! R = Some room →
  ∃ offs anss cands rooms',
    getOffers R p rooms = (Return {| offers_out := offs |}, rooms)
    ∧ getAnswers R p rooms = (Return {| answers_out := anss |}, rooms)
    ∧ getIceCandidates R p rooms =
        (Return {| iceCandidates_out := cands |}, rooms')
    ∧ fromPeerId <$> offs
        `sublist_of` filter (fun id => id ≠ p) (keys (participants room))
    ∧ fromPeerId <$> anss
        `sublist_of` filter (fun id => id ≠ p) (keys (participants room))
    ∧ fromPeerId <$> cands
        `sublist_of` filter (fun id => id ≠ p) (keys (participants room))
    ∧ (∀ e, e ∈ offs ∨ e ∈ anss →
            payload e ≠ Undefined ∧ payload e ≠ Val "")
    ∧ (∀ e, e ∈ cands → payload e ≠ Undefined ∧ payload e ≠ Val []).
Proof.
  intros E. eexists _, _, _, _.
  split; [by apply getOffers_spec|]. split; [by apply getAnswers_spec|].
  split; [by apply getIceCandidates_spec|].
  assert (∀ (b c : bool) k, bool_decide (k ≠ p) && b && c = true → k ≠ p)
    as Hguard.
  { intros b c k H. apply andb_true_iff in H as [H _].
    apply andb_true_iff in H as [H _]. by apply bool_decide_eq_true in H. }
  split; [|split; [|split; [|split]]].
  - apply senders_follow_keys; [done|]. intros k d H.
    apply (Hguard (truthy (get_prop (offers d) p)) true).
    by rewrite andb_true_r.
  - apply senders_follow_keys; [done|]. intros k d H.
    apply (Hguard (truthy (get_prop (answers d) p)) true).
    by rewrite andb_true_r.
  - apply senders_follow_keys; [done|]. intros k d H. by eapply Hguard.
  - intros e [He|He]; unfold addressed in He;
      apply contributed_passed in He as (k & d & T & ->);
      cbn [payload]; apply andb_true_iff in T as [_ T];
      split; intros N; rewrite N in T; done.
  - intros e He. unfold queued in He.
    apply contributed_passed in He as (k & d & T & ->).
    cbn [payload]. unfold drains in T.
    apply andb_true_iff in T as [T1 T2]. apply andb_true_iff in T1 as [_ T1].
    split; intros N; rewrite N in *; done.
Qed.

Lemma read_results_follow_roster_witness :
  ∃ offs anss cands rooms',
    getOffers "r" "b" {["r" := busy_room]}
      = (Return {| offers_out := offs |}, {["r" := busy_room]})
    ∧ getAnswers "r" "b" {["r" := busy_room]}
        = (Return {| answers_out := anss |}, {["r" := busy_room]})
    ∧ getIceCandidates "r" "b" {["r" := busy_room]} =
        (Return {| iceCandidates_out := cands |}, rooms')
    ∧ fromPeerId <$> offs `sublist_of` ["a"]
    ∧ fromPeerId <$> anss `sublist_of` ["a"]
    ∧ fromPeerId <$> cands `sublist_of` ["a"]
    ∧ (∀ e, e ∈ offs ∨ e ∈ anss →
            payload e ≠ Undefined ∧ payload e ≠ Val "")
    ∧ (∀ e, e ∈ cands → payload e ≠ Undefined ∧ payload e ≠ Val []).
Proof.
  apply (read_results_follow_roster {["r" := busy_room]} "r" "b" busy_room).
  reflexivity.
Defined.

(** ** Reading twice, writing twice *)

Lemma queued_after_visit p k d :
  queued p (visited (drains p) (drained p) (k, d)) = None.
Proof.
  unfold queued, contributed, visited. cbn [fst snd].
  destruct (drains p k d) eqn:T; [|by rewrite T].
  unfold drains in *.
  apply andb_true_iff in T as [T L]. apply andb_true_iff in T as [T _].
  rewrite T. unfold drained. cbn [iceCandidates set_iceCandidates].
  assert (get_prop (set_prop p [] (iceCandidates d)) p = Val []) as ->
    by by apply get_prop_Val, length_positive_set.
  done.
Qed.

(** X12. A read of candidates leaves nothing behind for the reader: in an
    existing room, [getIceCandidates] called twice in a row by the same peer
    returns an empty list the second time, whatever the senders had queued
    and whoever the reader is. *)
Theorem second_read_is_empty (rooms : Rooms) (R p : string) :
  is_Some (rooms !! R) →
  (getIceCandidates R p (getIceCandidates R p rooms).2).1 =
    Return {| iceCandidates_out := [] |}.
Proof.
  intros [room E]. rewrite (getIceCandidates_spec _ _ _ _ E). cbn [snd].
  rewrite (getIceCandidates_spec _ _ _ _ (lookup_insert_eq _ _ _)).
  cbn [fst participants set_participants]. do 2 f_equal.
  induction (participants room) as [|[k d] o IH]; [done|].
  rewrite fmap_cons. cbn [omap list_omap]. by rewrite queued_after_visit.
Qed.

Lemma second_read_is_empty_witness :
  (getIceCandidates "r" "b"
     (getIceCandidates "r" "b" {["r" := busy_room]}).2).1 =
    Return {| iceCandidates_out := [] |}.
Proof.
  apply (second_read_is_empty {["r" := busy_room]} "r" "b").
  by eexists.
Defined.

Lemma update_update {V} (o : obj V) k v1 v2 :
  update_prop k v2 (update_prop k v1 o) = update_prop k v2 o.
Proof.
  induction o as [|[k' w] o IH]; [done|]. cbn [update_prop].
  destruct (String.eqb k' k) eqn:Ek; cbn [update_prop]; rewrite Ek; [done|].
  by rewrite IH.
Qed.

Lemma update_define_index {V} i (o : obj V) k v1 v2 :
  own_prop o k = None →
  update_prop k v2 (define_index i k v1 o) = define_index i k v2 o.
Proof.
  induction o as [|[k' w] o IH]; intros H.
  - cbn. by rewrite String.eqb_refl.
  - rewrite own_prop_cons in H. case_decide; [done|].
    assert (String.eqb k' k = false) as Ek by by apply eqb_false.
    cbn [define_index]. destruct (array_index k') as [j|].
    + case_bool_decide; cbn [update_prop]; rewrite ?Ek, ?String.eqb_refl;
        [by rewrite IH | done].
    + cbn [update_prop]. by rewrite String.eqb_refl.
Qed.

Lemma update_app_new {V} (o : obj V) k v1 v2 :
  own_prop o k = None →
  update_prop k v2 (o ++ [(k, v1)]) = o ++ [(k, v2)].
Proof.
  induction o as [|[k' w] o IH]; intros H.
  - cbn. by rewrite String.eqb_refl.
  - rewrite own_prop_cons in H. case_decide; [done|].
    assert (String.eqb k' k = false) as Ek by by apply eqb_false.
    rewrite <- !app_comm_cons. cbn [update_prop]. rewrite Ek.
    by rewrite IH.
Qed.

(** Assigning twice to one key is assigning the second value. *)
Lemma set_prop_set_prop {V} (o : obj V) k v1 v2 :
  set_prop k v2 (set_prop k v1 o) = set_prop k v2 o.
Proof.
  unfold set_prop at 2 3. destruct (own_prop o k) as [w|] eqn:E.
  - unfold set_prop. rewrite own_prop_update_eq by (rewrite E; eauto).
    apply update_update.
  - destruct (inherited k) as [[n|]|] eqn:HI.
    + unfold set_prop. rewrite own_prop_define_eq by done.
      unfold define_prop. destruct (array_index k) as [i|].
      * by apply update_define_index.
      * by apply update_app_new.
    + unfold set_prop. by rewrite E, HI.
    + unfold set_prop. rewrite own_prop_define_eq by done.
      unfold define_prop. destruct (array_index k) as [i|].
      * by apply update_define_index.
      * by apply update_app_new.
Qed.

Lemma stored_stored A d1 d2 room :
  stored A d2 (stored A d1 room) = stored A d2 room.
Proof.
  unfold stored. cbn [participants set_participants id].
  by rewrite update_update.
Qed.

(** X13. A later offer replaces the earlier one without a trace: sending
    [s1] and then [s2] from [A] to [B] gives the answer and leaves the
    registry that sending [s2] alone gives, for every room, sender,
    recipient and payloads, failures included; in particular sending the
    same offer twice is sending it once.  The same holds for answers. *)
Theorem later_description_replaces (rooms : Rooms) (R A B s1 s2 : string) :
  sendOffer R A B s2 (sendOffer R A B s1 rooms).2 = sendOffer R A B s2 rooms
  ∧ sendAnswer R A B s2 (sendAnswer R A B s1 rooms).2 =
      sendAnswer R A B s2 rooms.
Proof.
  destruct (rooms !! R) as [room|] eqn:E.
  - destruct (own_prop (participants room) A) as [data|] eqn:HA.
    + rewrite (sendOffer_spec _ _ _ _ s1 _ _ E HA),
        (sendAnswer_spec _ _ _ _ s1 _ _ E HA). cbn [snd].
      rewrite (sendOffer_spec _ _ _ _ s2 _ _ E HA),
        (sendAnswer_spec _ _ _ _ s2 _ _ E HA).
      split.
      * rewrite (sendOffer_spec _ _ _ _ s2 _ _ (lookup_insert_eq _ _ _)
                   (stored_own _ _ _ ltac:(eauto))).
        rewrite insert_insert_eq, stored_stored.
        cbn [set_offers offers answers iceCandidates].
        by rewrite set_prop_set_prop.
      * rewrite (sendAnswer_spec _ _ _ _ s2 _ _ (lookup_insert_eq _ _ _)
                   (stored_own _ _ _ ltac:(eauto))).
        rewrite insert_insert_eq, stored_stored.
        cbn [set_answers offers answers iceCandidates].
        by rewrite set_prop_set_prop.
    + destruct (sender_without_mailbox rooms R A B s1 room E HA)
        as (e & -> & -> & _).
      done.
  - unfold sendOffer, sendAnswer. by rewrite !(in_room_None _ _ _ E).
Qed.

(** * Properties of the connection manager *)

Section Manager.
Import WebRTC.

Variable offer : Browser → nat → completion string.
Variable answer : Browser → nat → string → completion string.
Variable accept : Browser → nat → string → completion unit.

Lemma map_get_set_eq {V} (m : list (string * V)) k v :
  map_get (map_set k v m) k = Some v.
Proof.
  unfold map_get, map_set. destruct (own_prop m k) eqn:E.
  - apply own_prop_update_eq. rewrite E. eauto.
  - rewrite own_prop_app, E. cbn. by rewrite String.eqb_refl.
Qed.

Lemma map_get_set_ne {V} (m : list (string * V)) k k' v :
  k ≠ k' → map_get (map_set k v m) k' = map_get m k'.
Proof.
  intros Hne. unfold map_get, map_set. destruct (own_prop m k) eqn:E.
  - by apply own_prop_update_ne.
  - rewrite own_prop_app. destruct (own_prop m k'); [done|].
    cbn. by rewrite (proj2 (eqb_false k k')).
Qed.

Lemma addTracks_fields s ts pc :
  let pc' := foldl (fun pc track => addTrack track s pc) pc ts in
  configuration pc' = configuration pc
  ∧ senders pc' = senders pc ++ ((fun track => (track, s)) <$> ts)
  ∧ onicecandidate pc' = onicecandidate pc
  ∧ ontrack pc' = ontrack pc
  ∧ closed pc' = closed pc.
Proof.
  revert pc. induction ts as [|t ts IH]; intros pc; cbn.
  - by rewrite app_nil_r.
  - destruct (IH (addTrack t s pc)) as (-> & -> & -> & -> & ->).
    cbn. by rewrite <- app_assoc.
Qed.

(** The connection [createPeerConnection] allocates. *)
Lemma made_connection stream remote :
  let pc :=
    bind_handlers remote
      match stream with
      | Some s =>
          foldl (fun pc track => addTrack track s pc) new_RTCPeerConnection
            (getTracks s)
      | None => new_RTCPeerConnection
      end in
  configuration pc = rtcConfig ∧ senders pc = tracks_of stream
  ∧ onicecandidate pc = Some remote ∧ ontrack pc = Some remote
  ∧ closed pc = false.
Proof.
  destruct stream as [s|]; cbn; [|done].
  destruct (addTracks_fields s (getTracks s) new_RTCPeerConnection)
    as (-> & -> & _ & _ & ->).
  done.
Qed.

Lemma createPeerConnection_known c r h :
  map_get (peerConnections (this c)) r = Some h →
  createPeerConnection r c = (Return h, c).
Proof. intros E. unfold createPeerConnection. by rewrite E. Qed.

Lemma createPeerConnection_new c r :
  map_get (peerConnections (this c)) r = None →
  ∃ pc,
    createPeerConnection r c =
      (Return (length (connections (window c))),
       {| this := set_peerConnections
                    (peerConnections (this c)
                     ++ [(r, length (connections (window c)))]) (this c);
          window := set_connections (connections (window c) ++ [pc])
                      (window c) |})
    ∧ configuration pc = rtcConfig
    ∧ senders pc = tracks_of (localStream (this c))
    ∧ onicecandidate pc = Some r ∧ ontrack pc = Some r
    ∧ closed pc = false.
Proof.
  intros E. eexists. split.
  - unfold createPeerConnection. rewrite E. unfold map_set.
    unfold map_get in E. rewrite E. reflexivity.
  - apply made_connection.
Qed.


Lemma createOffer_client c r :
  (createOffer offer r c).2 = (createPeerConnection r c).2.
Proof.
  unfold createOffer. unfold_proc.
  by destruct (createPeerConnection r c) as [[h|e] c'].
Qed.

Lemma handleOffer_client c r s :
  (handleOffer answer r s c).2 = (createPeerConnection r c).2.
Proof.
  unfold handleOffer. unfold_proc.
  by destruct (createPeerConnection r c) as [[h|e] c'].
Qed.

Lemma handleAnswer_client c r s : (handleAnswer accept r s c).2 = c.
Proof.
  unfold handleAnswer. by destruct (map_get (peerConnections (this c)) r).
Qed.

Lemma handleRemoteIceCandidate_client c r s :
  (handleRemoteIceCandidate accept r s c).2 = c.
Proof.
  unfold handleRemoteIceCandidate.
  by destruct (map_get (peerConnections (this c)) r).
Qed.


Lemma wired_ext c c' r h :
  connections (window c') !! h = connections (window c) !! h →
  wired c r h → wired c' r h.
Proof. intros E (pc & H & ?). exists pc. by rewrite E. Qed.

Lemma evolves_refl pc : evolves pc pc.
Proof. by repeat split. Qed.

Lemma evolves_trans pc1 pc2 pc3 :
  evolves pc1 pc2 → evolves pc2 pc3 → evolves pc1 pc3.
Proof.
  intros (? & ? & ? & ? & ?) (? & ? & ? & ? & ?).
  repeat split; try congruence. eauto.
Qed.

Lemma close_lookup h b h' :
  connections (close h b) !! h' =
    if decide (h = h') then mark_closed <$> connections b !! h'
    else connections b !! h'.
Proof.
  unfold close. cbn. rewrite list_lookup_alter. by case_decide; subst.
Qed.

Lemma close_all_lookup (m : list (string * nat)) b h pc :
  connections b !! h = Some pc →
  ∃ pc', connections (foldl (fun b e => close e.2 b) b m) !! h = Some pc'
         ∧ evolves pc pc' ∧ (h ∈ m.*2 → closed pc' = true).
Proof.
  revert b pc. induction m as [|[r h0] m IH]; intros b pc Hpc.
  - exists pc. split; [done|]. split; [apply evolves_refl|].
    intros Hin. by apply elem_of_nil in Hin.
  - cbn [foldl snd].
    pose proof (close_lookup h0 b h) as Hstep. rewrite Hpc in Hstep.
    case_decide as Hd.
    + destruct (IH _ _ Hstep) as (pc' & Hl & Hev & _).
      exists pc'. split; [done|].
      destruct Hev as (? & ? & ? & ? & Hc). cbn in *.
      by repeat split; auto.
    + destruct (IH _ _ Hstep) as (pc' & Hl & Hev & Hin).
      exists pc'. split; [done|]. split; [done|].
      rewrite fmap_cons, elem_of_cons. intros [?|?]; [done|eauto].
Qed.

Lemma close_all_other (m : list (string * nat)) b h :
  h ∉ m.*2 →
  connections (foldl (fun b e => close e.2 b) b m) !! h = connections b !! h.
Proof.
  revert b. induction m as [|[r h0] m IH]; intros b Hin; [done|].
  rewrite fmap_cons, not_elem_of_cons in Hin. destruct Hin as [Hne Hin].
  cbn [foldl snd]. rewrite IH by done. rewrite close_lookup.
  by rewrite decide_False.
Qed.

Lemma close_all_rest (m : list (string * nat)) b :
  let b' := foldl (fun b e => close e.2 b) b m in
  length (connections b') = length (connections b)
  ∧ stopped b' = stopped b ∧ dispatched b' = dispatched b
  ∧ called b' = called b.
Proof.
  revert b. induction m as [|[r h0] m IH]; intros b; [done|].
  cbn [foldl snd]. destruct (IH (close h0 b)) as (-> & -> & -> & ->).
  cbn. by rewrite length_alter.
Qed.

Lemma stop_all ts b :
  foldl (fun b track => stop track b) b ts =
    {| connections := connections b; stopped := stopped b ++ ts;
       dispatched := dispatched b; called := called b |}.
Proof.
  revert b. induction ts as [|t ts IH]; intros b.
  - cbn. rewrite app_nil_r. by destruct b.
  - cbn [foldl]. rewrite IH. cbn. by rewrite <- app_assoc.
Qed.

Lemma fire_client h e c :
  this (fire h e c) = this c
  ∧ connections (window (fire h e c)) = connections (window c)
  ∧ stopped (window (fire h e c)) = stopped (window c).
Proof.
  unfold fire. destruct (connections (window c) !! h) as [pc|]; [|done].
  destruct e as [[s|]|streams].
  - by destruct (onicecandidate pc).
  - by destruct (onicecandidate pc).
  - destruct (ontrack pc) as [r|]; [|done].
    by destruct (map_get (onRemoteStreamCallbacks (this c)) r).
Qed.

Lemma closeAllConnections_client c :
  let c' := (closeAllConnections c).2 in
  this c' = set_localStream None (set_peerConnections [] (this c))
  ∧ connections (window c') =
      connections (foldl (fun b e => close e.2 b) (window c)
                     (peerConnections (this c)))
  ∧ stopped (window c') =
      stopped (window c)
      ++ match localStream (this c) with
         | Some s => getTracks s
         | None => []
         end
  ∧ dispatched (window c') = dispatched (window c)
  ∧ called (window c') = called (window c).
Proof.
  unfold closeAllConnections.
  destruct (close_all_rest (peerConnections (this c)) (window c))
    as (_ & Hs & Hd & Hc).
  destruct (localStream (this c)) as [s|] eqn:E; cbn.
  - rewrite stop_all. cbn. by rewrite Hs, Hd, Hc.
  - rewrite Hs, Hd, Hc, app_nil_r. split; [|done].
    unfold set_localStream, set_peerConnections. cbn. by rewrite E.
Qed.

(** One action, seen from a connection that exists. *)
Lemma after_connection c a h pc :
  connections (window c) !! h = Some pc →
  ∃ pc', connections (window (after offer answer accept c a)) !! h = Some pc'
         ∧ evolves pc pc'.
Proof.
  intros Hpc.
  assert (∀ c', connections (window c') = connections (window c) →
    ∃ pc', connections (window c') !! h = Some pc' ∧ evolves pc pc')
    as Hsame.
  { intros c' E. exists pc. rewrite E. split; [done | apply evolves_refl]. }
  assert (∀ r, ∃ pc',
    connections (window (createPeerConnection r c).2) !! h = Some pc'
    ∧ evolves pc pc') as Hcreate.
  { intros r. destruct (map_get (peerConnections (this c)) r) as [h0|] eqn:E.
    - rewrite (createPeerConnection_known _ _ _ E). by apply Hsame.
    - destruct (createPeerConnection_new _ _ E) as (pc0 & -> & _).
      exists pc. cbn. rewrite lookup_app_l by by eapply lookup_lt_Some.
      split; [done | apply evolves_refl]. }
  destruct a as [[stream|e] | r | r cb | r | r s | r s | r s | | h0 e];
    cbn [after].
  - by apply Hsame.
  - by apply Hsame.
  - apply Hcreate.
  - by apply Hsame.
  - rewrite createOffer_client. apply Hcreate.
  - rewrite handleOffer_client. apply Hcreate.
  - rewrite handleAnswer_client. by apply Hsame.
  - rewrite handleRemoteIceCandidate_client. by apply Hsame.
  - destruct (closeAllConnections_client c) as (_ & -> & _).
    destruct (close_all_lookup (peerConnections (this c)) _ _ _ Hpc)
      as (pc' & ? & ? & _).
    eauto.
  - apply Hsame. apply fire_client.
Qed.

Lemma connection_evolves c (l : list action) h pc :
  connections (window c) !! h = Some pc →
  ∃ pc',
    connections (window (foldl (after offer answer accept) c l)) !! h
      = Some pc'
    ∧ evolves pc pc'.
Proof.
  revert c pc. induction l as [|a l IH]; intros c pc Hpc.
  - exists pc. split; [done | apply evolves_refl].
  - cbn [foldl].
    destruct (after_connection c a h pc Hpc) as (pc1 & H1 & Hev1).
    destruct (IH _ _ H1) as (pc2 & H2 & Hev2).
    exists pc2. split; [done|].
    by apply (evolves_trans _ _ _ Hev1).
Qed.

(** X15. A connection keeps what it was made with.  Through every
    sequence of calls of the manager and events of the page, a connection
    that exists keeps its configuration, the tracks given to it and its
    two handlers, and, once closed, stays closed: no call adds a track to
    a connection already made or opens one again. *)
Theorem connection_keeps_its_tracks (c : Client) (l : list action)
  (h : nat) (pc : RTCPeerConnection) :
  connections (window c) !! h = Some pc →
  ∃ pc',
    connections (window (foldl (after offer answer accept) c l)) !! h
      = Some pc'
    ∧ configuration pc' = configuration pc
    ∧ senders pc' = senders pc
    ∧ onicecandidate pc' = onicecandidate pc
    ∧ ontrack pc' = ontrack pc
    ∧ (closed pc = true → closed pc' = true).
Proof. apply connection_evolves. Qed.

(** X16. A connection for a peer that has none.  [createPeerConnection]
    allocates one connection, the next of the page: it carries the tracks
    of the local stream of that moment, each once and with the stream (none
    if no stream was initialised), it is open, and both its handlers are
    bound to the peer.  The peer is registered last; the connections and
    registrations of the other peers, the stream, the callbacks and the
    page's logs are as before. *)
Theorem new_connection_carries_stream (c : Client) (r : string) :
  map_get (peerConnections (this c)) r = None →
  let h := length (connections (window c)) in
  let c' := (createPeerConnection r c).2 in
  (createPeerConnection r c).1 = Return h
  ∧ (∃ pc, connections (window c') !! h = Some pc
           ∧ senders pc = tracks_of (localStream (this c)))
  ∧ wired c' r h
  ∧ length (connections (window c')) = S h
  ∧ (∀ h', h' < h →
       connections (window c') !! h' = connections (window c) !! h')
  ∧ peerConnections (this c') = peerConnections (this c) ++ [(r, h)]
  ∧ (∀ r', r' ≠ r →
       map_get (peerConnections (this c')) r'
       = map_get (peerConnections (this c)) r')
  ∧ localStream (this c') = localStream (this c)
  ∧ onRemoteStreamCallbacks (this c') = onRemoteStreamCallbacks (this c)
  ∧ peerId (this c') = peerId (this c)
  ∧ stopped (window c') = stopped (window c)
  ∧ dispatched (window c') = dispatched (window c)
  ∧ called (window c') = called (window c).
Proof.
  intros E h c'. subst h c'.
  destruct (createPeerConnection_new _ _ E)
    as (pc & -> & Hcfg & Hs & Hi & Ht & Hc).
  cbn. split; [done|].
  assert ((connections (window c) ++ [pc]) !! length (connections (window c))
          = Some pc) as Hl by by apply list_lookup_middle.
  split; [by exists pc|]. split; [by exists pc|].
  split; [rewrite length_app; cbn; lia|].
  split; [intros h' Hh'; by rewrite lookup_app_l|].
  split; [done|]. split; [|done].
  intros r' Hne. unfold map_get in *. rewrite own_prop_app.
  destruct (own_prop (peerConnections (this c)) r'); [done|].
  cbn. by rewrite (proj2 (eqb_false r r')).
Qed.

(** X17. A stream that comes late is not sent.  If a peer's connection is
    made while no local stream is initialised, then whatever is called
    afterwards ([initLocalStream], [createPeerConnection], [createOffer] or
    [handleOffer] for the same peer, any event), that connection never
    carries a track. *)
Theorem late_stream_not_attached (c : Client) (r : string)
  (l : list action) :
  map_get (peerConnections (this c)) r = None →
  localStream (this c) = None →
  let h := length (connections (window c)) in
  (createPeerConnection r c).1 = Return h
  ∧ ∃ pc,
      connections
        (window (foldl (after offer answer accept)
                   (createPeerConnection r c).2 l)) !! h = Some pc
      ∧ senders pc = [].
Proof.
  intros E Hnone h. subst h.
  destruct (createPeerConnection_new _ _ E) as (pc & Hrun & _ & Hs & _).
  rewrite Hnone in Hs. cbn in Hs.
  split; [by rewrite Hrun|].
  assert (connections (window (createPeerConnection r c).2)
            !! length (connections (window c)) = Some pc) as Hl.
  { rewrite Hrun. cbn. by apply list_lookup_middle. }
  destruct (connection_evolves _ l _ _ Hl) as (pc' & Hl' & (_ & Hs' & _)).
  exists pc'. split; [done|]. by rewrite Hs'.
Qed.

(** X18. [closeAllConnections] releases everything but the callbacks.  It
    always returns; afterwards no peer has a connection and there is no
    local stream; every connection that was registered is closed, the
    others are as they were; the tracks of the local stream, if there was
    one, are stopped, each once and in order; the callbacks registered
    with [onRemoteStream] and the peer's identifier stay.  A second call
    changes nothing, and [handleAnswer] and [handleRemoteIceCandidate] then
    throw [No peer connection for ...] for every peer. *)
Theorem closeAllConnections_releases (c : Client) :
  let c' := (closeAllConnections c).2 in
  (closeAllConnections c).1 = Return tt
  ∧ peerConnections (this c') = []
  ∧ localStream (this c') = None
  ∧ onRemoteStreamCallbacks (this c') = onRemoteStreamCallbacks (this c)
  ∧ peerId (this c') = peerId (this c)
  ∧ stopped (window c') =
      stopped (window c)
      ++ match localStream (this c) with
         | Some s => getTracks s
         | None => []
         end
  ∧ (∀ r h pc, map_get (peerConnections (this c)) r = Some h →
       connections (window c) !! h = Some pc →
       ∃ pc', connections (window c') !! h = Some pc'
              ∧ closed pc' = true ∧ senders pc' = senders pc)
  ∧ (∀ h, h ∉ (peerConnections (this c)).*2 →
       connections (window c') !! h = connections (window c) !! h)
  ∧ closeAllConnections c' = (Return tt, c')
  ∧ ∀ r s,
      handleAnswer accept r s c'
      = (Throw (Error ("No peer connection for " +:+ r)), c')
      ∧ handleRemoteIceCandidate accept r s c'
        = (Throw (Error ("No peer connection for " +:+ r)), c').
Proof.
  intros c'.
  destruct (closeAllConnections_client c) as (Hthis & Hconn & Hstop & _).
  fold c' in Hthis, Hconn, Hstop.
  split; [unfold closeAllConnections; by destruct (localStream (this c))|].
  rewrite Hthis. cbn. do 4 (split; [done|]). split; [done|].
  split; [|split; [|split]].
  - intros r h pc Hget Hpc. rewrite Hconn.
    destruct (close_all_lookup (peerConnections (this c)) _ _ _ Hpc)
      as (pc' & Hl & (_ & Hs & _) & Hin).
    exists pc'. split; [done|]. split; [|done].
    apply Hin. apply own_prop_elem_of in Hget.
    apply list_elem_of_fmap. by exists (r, h).
  - intros h Hin. rewrite Hconn. by apply close_all_other.
  - unfold closeAllConnections at 1. rewrite Hthis. cbn.
    clearbody c'. destruct c' as [t w]. cbn in Hthis. by rewrite Hthis.
  - intros r s. unfold handleAnswer, handleRemoteIceCandidate.
    by rewrite Hthis.
Qed.

Lemma kept_ext c c' :
  peerConnections (this c') = peerConnections (this c) →
  connections (window c') = connections (window c) →
  kept c → kept c'.
Proof.
  intros Hm Hc (H1 & H2 & H3). unfold kept. rewrite Hm.
  split; [done|]. split; [done|].
  intros r h Hin. apply (wired_ext c); [by rewrite Hc | eauto].
Qed.

Lemma kept_nil c : peerConnections (this c) = [] → kept c.
Proof.
  intros E. unfold kept. rewrite E. cbn.
  split; [constructor|]. split; [constructor|].
  intros r h Hin. by apply elem_of_nil in Hin.
Qed.

Lemma kept_create c r : kept c → kept (createPeerConnection r c).2.
Proof.
  intros (Hk & Hv & Hw).
  destruct (map_get (peerConnections (this c)) r) as [h|] eqn:E.
  { by rewrite (createPeerConnection_known _ _ _ E). }
  destruct (createPeerConnection_new _ _ E)
    as (pc & -> & Hcfg & _ & Hi & Ht & Hc).
  unfold kept. cbn.
  assert (∀ r' h', (r', h') ∈ peerConnections (this c) →
            h' < length (connections (window c))) as Hlt.
  { intros r' h' Hin. destruct (Hw _ _ Hin) as (pc' & Hl & _).
    by eapply lookup_lt_Some. }
  split; [|split].
  - unfold keys. rewrite fmap_app. apply NoDup_app. split; [done|].
    split; [|apply NoDup_singleton].
    intros k Hin. cbn. rewrite list_elem_of_singleton. intros ->.
    by apply own_prop_None in E.
  - rewrite fmap_app. apply NoDup_app. split; [done|].
    split; [|apply NoDup_singleton].
    intros h Hin. cbn. rewrite list_elem_of_singleton. intros ->.
    apply list_elem_of_fmap in Hin as ([r' h'] & Heq & Hin). cbn in Heq.
    subst h'. apply Hlt in Hin. lia.
  - intros r' h'. rewrite elem_of_app, list_elem_of_singleton.
    intros [Hin | [= -> ->]].
    + destruct (Hw _ _ Hin) as (pc' & Hl & ?). exists pc'. cbn.
      rewrite lookup_app_l by by eapply lookup_lt_Some. done.
    + exists pc. cbn. split; [by apply list_lookup_middle|done].
Qed.

Lemma kept_after c a : kept c → kept (after offer answer accept c a).
Proof.
  intros Hk.
  destruct a as [[stream|e] | r | r cb | r | r s | r s | r s | | h0 e];
    cbn [after].
  - by apply (kept_ext c).
  - by apply (kept_ext c).
  - by apply kept_create.
  - by apply (kept_ext c).
  - rewrite createOffer_client. by apply kept_create.
  - rewrite handleOffer_client. by apply kept_create.
  - by rewrite handleAnswer_client.
  - by rewrite handleRemoteIceCandidate_client.
  - apply kept_nil. by destruct (closeAllConnections_client c) as (-> & _).
  - destruct (fire_client h0 e c) as (Ht & Hc & _).
    apply (kept_ext c); [by rewrite Ht | done | done].
Qed.

Lemma kept_run c l :
  kept c → kept (foldl (after offer answer accept) c l).
Proof.
  revert c. induction l as [|a l IH]; intros c Hk; [done|].
  cbn [foldl]. by apply IH, kept_after.
Qed.

Lemma after_peerId c a :
  peerId (this (after offer answer accept c a)) = peerId (this c).
Proof.
  destruct a as [[stream|e] | r | r cb | r | r s | r s | r s | | h0 e];
    cbn [after]; try done.
  - unfold createPeerConnection.
    by destruct (map_get (peerConnections (this c)) r).
  - rewrite createOffer_client. unfold createPeerConnection.
    by destruct (map_get (peerConnections (this c)) r).
  - rewrite handleOffer_client. unfold createPeerConnection.
    by destruct (map_get (peerConnections (this c)) r).
  - by rewrite handleAnswer_client.
  - by rewrite handleRemoteIceCandidate_client.
  - by destruct (closeAllConnections_client c) as (-> & _).
  - by destruct (fire_client h0 e c) as (-> & _).
Qed.

Lemma run_peerId c l :
  peerId (this (foldl (after offer answer accept) c l)) = peerId (this c).
Proof.
  revert c. induction l as [|a l IH]; intros c; [done|].
  cbn [foldl]. by rewrite IH, after_peerId.
Qed.

Lemma values_injective {V} (m : list (string * V)) k k' v :
  NoDup m.*2 → (k, v) ∈ m → (k', v) ∈ m → k = k'.
Proof.
  induction m as [|[k0 v0] m IH]; intros Hnd H1 H2.
  - by apply elem_of_nil in H1.
  - rewrite fmap_cons in Hnd. apply NoDup_cons in Hnd as [Hv Hnd].
    assert (∀ k1, (k1, v0) ∉ m) as Hfresh.
    { intros k1 Hin. apply Hv. apply list_elem_of_fmap. by exists (k1, v0). }
    apply elem_of_cons in H1 as [E1 | H1];
      apply elem_of_cons in H2 as [E2 | H2]; simplify_eq; try done.
    + by apply Hfresh in H2.
    + by apply Hfresh in H1.
    + by apply IH.
Qed.

(** X19. The registry of connections is in order.  Whatever a component
    calls and whatever the page reports, starting from a manager just
    constructed: the manager keeps its identifier; a peer registered has a
    connection that exists, is open, has the configured servers and has
    both handlers bound to that peer; and no connection is registered for
    two peers. *)
Theorem manager_well_kept (uuid : string) (l : list action) :
  let c := foldl (after offer answer accept) (fresh uuid) l in
  peerId (this c) = uuid
  ∧ NoDup (keys (peerConnections (this c)))
  ∧ (∀ r h, map_get (peerConnections (this c)) r = Some h → wired c r h)
  ∧ ∀ r r' h,
      map_get (peerConnections (this c)) r = Some h →
      map_get (peerConnections (this c)) r' = Some h → r = r'.
Proof.
  intros c.
  assert (kept c) as (Hk & Hv & Hw) by by apply kept_run, kept_nil.
  split.
  - subst c. by rewrite run_peerId.
  - split; [done|]. split.
    + intros r h Hget. by apply Hw, own_prop_elem_of.
    + intros r r' h H1 H2.
      by apply (values_injective (peerConnections (this c)) r r' h);
        [|apply own_prop_elem_of..].
Qed.

(** X20. Events reach their peer.  In a client reached from a manager just
    constructed, on the connection registered for a peer: a candidate the
    browser gathers is dispatched on [window] as one ['ice-candidate']
    event that names this peer and carries the candidate, and nothing else
    changes; the [null] that ends the gathering dispatches nothing; a
    remote track calls the callback registered for this peer, once, with
    the first of the event's streams, and is dropped when no callback is
    registered. *)
Theorem events_reach_their_peer (uuid : string) (l : list action)
  (r : string) (h : nat) (s : string) (streams : list MediaStream) :
  let c := foldl (after offer answer accept) (fresh uuid) l in
  map_get (peerConnections (this c)) r = Some h →
  fire h (IceCandidateEvent (Some s)) c =
    {| this := this c;
       window :=
         {| connections := connections (window c);
            stopped := stopped (window c);
            dispatched :=
              dispatched (window c)
              ++ [{| remotePeerId := r; candidate := s |}];
            called := called (window c) |} |}
  ∧ fire h (IceCandidateEvent None) c = c
  ∧ fire h (TrackEvent streams) c =
      match map_get (onRemoteStreamCallbacks (this c)) r with
      | Some callback =>
          {| this := this c;
             window :=
               {| connections := connections (window c);
                  stopped := stopped (window c);
                  dispatched := dispatched (window c);
                  called := called (window c) ++ [(callback, head streams)]
               |} |}
      | None => c
      end.
Proof.
  intros c Hget.
  assert (kept c) as (_ & _ & Hw) by by apply kept_run, kept_nil.
  destruct (Hw r h (own_prop_elem_of _ _ _ Hget))
    as (pc & Hl & _ & Hi & Ht & _).
  unfold fire. by rewrite Hl, Hi, Ht.
Qed.

Lemma after_callbacks c a r :
  (∀ cb, a ≠ OnRemoteStream r cb) →
  map_get (onRemoteStreamCallbacks (this (after offer answer accept c a))) r
  = map_get (onRemoteStreamCallbacks (this c)) r.
Proof.
  intros Hne.
  destruct a as [[stream|e] | r0 | r0 cb | r0 | r0 s | r0 s | r0 s | | h0 e];
    cbn [after]; try done.
  - unfold createPeerConnection.
    by destruct (map_get (peerConnections (this c)) r0).
  - cbn. apply map_get_set_ne. intros ->. by apply (Hne cb).
  - rewrite createOffer_client. unfold createPeerConnection.
    by destruct (map_get (peerConnections (this c)) r0).
  - rewrite handleOffer_client. unfold createPeerConnection.
    by destruct (map_get (peerConnections (this c)) r0).
  - by rewrite handleAnswer_client.
  - by rewrite handleRemoteIceCandidate_client.
  - by destruct (closeAllConnections_client c) as (-> & _).
  - by destruct (fire_client h0 e c) as (-> & _).
Qed.

(** X21. A callback stays registered until it is replaced.  After
    [onRemoteStream] for a peer, that peer's callback is the one given, an
    earlier one being replaced, and the callbacks of the other peers are as
    before; it stays so through every sequence of calls and events in
    which [onRemoteStream] is not called for this peer again,
    [closeAllConnections] included. *)
Theorem callback_stays_registered (c : Client) (r : string) (cb : nat)
  (l : list action) :
  (∀ cb', OnRemoteStream r cb' ∉ l) →
  let c' := (onRemoteStream r cb c).2 in
  (onRemoteStream r cb c).1 = Return tt
  ∧ (∀ r', r' ≠ r →
       map_get (onRemoteStreamCallbacks (this c')) r'
       = map_get (onRemoteStreamCallbacks (this c)) r')
  ∧ map_get
      (onRemoteStreamCallbacks
         (this (foldl (after offer answer accept) c' l))) r
    = Some cb.
Proof.
  intros Hl c'. split; [done|]. split.
  - intros r' Hne. subst c'. cbn. by apply map_get_set_ne.
  - assert (map_get (onRemoteStreamCallbacks (this c')) r = Some cb) as H0.
    { subst c'. cbn. apply map_get_set_eq. }
    clearbody c'. revert c' H0.
    induction l as [|a l IH]; intros c' H0; [done|].
    cbn [foldl]. apply IH.
    + intros cb' Hin. apply (Hl cb'). by apply list_elem_of_further.
    + rewrite after_callbacks; [done|].
      intros cb' ->. apply (Hl cb'). apply list_elem_of_here.
Qed.

End Manager.

(** Instances on an example page. *)

Lemma connection_keeps_its_tracks_witness :
  ∃ pc',
    WebRTC.connections
      (WebRTC.window
         (foldl
            (WebRTC.after WebRTC.example_offer WebRTC.example_answer
               WebRTC.example_accept)
            WebRTC.calling_bob
            [WebRTC.CloseAllConnections;
             WebRTC.InitLocalStream (Return {| WebRTC.getTracks := [2] |});
             WebRTC.CreateOffer "bob"])) !! 0
      = Some pc'
    ∧ WebRTC.senders pc' = [(0, WebRTC.camera); (1, WebRTC.camera)]
    ∧ WebRTC.closed pc' = true.
Proof.
  destruct
    (connection_keeps_its_tracks WebRTC.example_offer WebRTC.example_answer
       WebRTC.example_accept WebRTC.calling_bob
       [WebRTC.CloseAllConnections;
        WebRTC.InitLocalStream (Return {| WebRTC.getTracks := [2] |});
        WebRTC.CreateOffer "bob"]
       0
       {| WebRTC.configuration := WebRTC.rtcConfig;
          WebRTC.senders := [(0, WebRTC.camera); (1, WebRTC.camera)];
          WebRTC.onicecandidate := Some "bob";
          WebRTC.ontrack := Some "bob";
          WebRTC.closed := false |})
    as (pc' & Hl & _ & Hs & _); [reflexivity|].
  exists pc'. split; [exact Hl|]. split; [exact Hs|].
  vm_compute in Hl. by injection Hl as <-.
Defined.

Lemma new_connection_carries_stream_witness :
  (WebRTC.createPeerConnection "bob" WebRTC.filming).1 = Return 0
  ∧ WebRTC.wired WebRTC.calling_bob "bob" 0.
Proof.
  destruct (new_connection_carries_stream WebRTC.filming "bob")
    as (H1 & _ & H2 & _); [reflexivity|].
  split; [exact H1 | exact H2].
Defined.

Lemma late_stream_not_attached_witness :
  ∃ pc,
    WebRTC.connections
      (WebRTC.window
         (foldl
            (WebRTC.after WebRTC.example_offer WebRTC.example_answer
               WebRTC.example_accept)
            (WebRTC.createPeerConnection "bob" (WebRTC.fresh "me")).2
            [WebRTC.InitLocalStream (Return WebRTC.camera);
             WebRTC.CreateOffer "bob"])) !! 0 = Some pc
    ∧ WebRTC.senders pc = [].
Proof.
  destruct
    (late_stream_not_attached WebRTC.example_offer WebRTC.example_answer
       WebRTC.example_accept (WebRTC.fresh "me") "bob"
       [WebRTC.InitLocalStream (Return WebRTC.camera);
        WebRTC.CreateOffer "bob"])
    as (_ & H); [reflexivity | reflexivity | exact H].
Defined.

Lemma events_reach_their_peer_witness :
  WebRTC.fire 0 (WebRTC.IceCandidateEvent None)
    (foldl
       (WebRTC.after WebRTC.example_offer WebRTC.example_answer
          WebRTC.example_accept)
       (WebRTC.fresh "me")
       [WebRTC.OnRemoteStream "bob" 7; WebRTC.CreateOffer "bob"])
  = foldl
      (WebRTC.after WebRTC.example_offer WebRTC.example_answer
         WebRTC.example_accept)
      (WebRTC.fresh "me")
      [WebRTC.OnRemoteStream "bob" 7; WebRTC.CreateOffer "bob"].
Proof.
  destruct
    (events_reach_their_peer WebRTC.example_offer WebRTC.example_answer
       WebRTC.example_accept "me"
       [WebRTC.OnRemoteStream "bob" 7; WebRTC.CreateOffer "bob"]
       "bob" 0 "candidate" [WebRTC.camera])
    as (_ & H & _); [reflexivity | exact H].
Defined.

Lemma callback_stays_registered_witness :
  WebRTC.map_get
    (WebRTC.onRemoteStreamCallbacks
       (WebRTC.this
          (foldl
             (WebRTC.after WebRTC.example_offer WebRTC.example_answer
                WebRTC.example_accept)
             (WebRTC.onRemoteStream "bob" 7 (WebRTC.fresh "me")).2
             [WebRTC.CreateOffer "bob"; WebRTC.CloseAllConnections;
              WebRTC.OnRemoteStream "carol" 8]))) "bob"
  = Some 7.
Proof.
  destruct
    (callback_stays_registered WebRTC.example_offer WebRTC.example_answer
       WebRTC.example_accept (WebRTC.fresh "me") "bob" 7
       [WebRTC.CreateOffer "bob"; WebRTC.CloseAllConnections;
        WebRTC.OnRemoteStream "carol" 8])
    as (_ & _ & H); [|exact H].
  intros cb' Hin.
  repeat (apply elem_of_cons in Hin as [Hin | Hin]; [discriminate Hin|]).
  by apply elem_of_nil in Hin.
Defined.
